(** * Vehicle-Maneuver-Simulator: the simulation core of
    [Pygame simulator/one vehicle control.py]

    The Python program keeps every quantity in a binary64 float.  The main
    development below reads those floats as real numbers ([R]): comparisons,
    clamping, the branch structure of the loop and the trigonometric
    functions are then exactly those of the source, and rounding is left
    out.  The one place of the source whose outcome depends on rounding (the
    "stop this tick" assignment [acceleration = -velocity.x / dt]) is
    translated a second time over the kernel's binary64 floats, in
    [Module Binary64], where it can be run.

    A Python [ZeroDivisionError] is modelled by [None]. *)

From Stdlib Require Import Reals Lra List Bool Arith.
From Stdlib Require Import Floats Uint63.

#[local] Set Warnings "-inexact-float".
Import ListNotations.

Local Open Scope R_scope.

(** ** Python builtins used by the source *)

(** An exception-or-value monad for the one exception the core can raise. *)
Definition bind {A B : Type} (m : option A) (k : A -> option B) : option B :=
  match m with
  | Some a => k a
  | None => None
  end.

Notation "x <- m ;; k" := (bind m (fun x => k))
  (at level 61, m at next level, right associativity).

(** [a < b] and [a > b] as Python truth values. *)
Definition Rltb (a b : R) : bool := if Rlt_dec a b then true else false.
Definition Rgtb (a b : R) : bool := Rltb b a.

Notation "a <? b" := (Rltb a b) : R_scope.
Notation "a >? b" := (Rgtb a b) : R_scope.

(** A float is falsy exactly when it is zero ([if self.steering:],
    [if dt != 0:]). *)
Definition truthy (a : R) : bool := if Req_dec_T a 0 then false else true.

(** [min(a, b)] and [max(a, b)]: the first argument is kept unless the
    second is strictly smaller (resp. larger). *)
Definition py_min (a b : R) : R := if b <? a then b else a.
Definition py_max (a b : R) : R := if b >? a then b else a.

(** [a / b] on floats raises [ZeroDivisionError] when [b] is zero. *)
Definition py_div (a b : R) : option R :=
  if truthy b then Some (a / b) else None.

(** [math.radians], [math.degrees]. *)
Definition radians (d : R) : R := d * PI / 180.
Definition degrees (r : R) : R := r * 180 / PI.

(** [math.copysign(m, s)]: the magnitude of [m] with the sign of [s]; a
    real zero carries the sign of Python's [0.0]. *)
Definition copysign (m s : R) : R := if s <? 0 then - Rabs m else Rabs m.

(** ** pygame.math.Vector2 *)

Module Vector2.

Record t : Type := mk { x : R; y : R }.

Definition add (u v : t) : t := mk (x u + x v) (y u + y v).
Definition scale (u : t) (k : R) : t := mk (x u * k) (y u * k).

(** [v.rotate(a)]: counter-clockwise rotation by [a] degrees. *)
Definition rotate (u : t) (a : R) : t :=
  mk (x u * cos (radians a) - y u * sin (radians a))
     (x u * sin (radians a) + y u * cos (radians a)).

End Vector2.

(** ** class EGO_Car *)

Module EGO_Car.

Record t : Type := mk {
  position : Vector2.t;
  velocity : Vector2.t;
  angle : R;
  length : R;
  max_acceleration : R;
  max_steering : R;
  max_velocity : R;
  brake_deceleration : R;
  free_deceleration : R;
  acceleration : R;
  steering : R
}.

(** [__init__(self, x, y, angle, length, max_steering, max_acceleration)] *)
Definition init (x y angle length max_steering max_acceleration : R) : t :=
  {| position := Vector2.mk x y;
     velocity := Vector2.mk (831 / 100) 0;
     angle := angle;
     length := length;
     max_acceleration := max_acceleration;
     max_steering := max_steering;
     max_velocity := 1385 / 100;
     brake_deceleration := 5;
     free_deceleration := 1;
     acceleration := 0;
     steering := 0 |}.

Definition set_acceleration (self : t) (a : R) : t :=
  {| position := position self; velocity := velocity self;
     angle := angle self; length := length self;
     max_acceleration := max_acceleration self;
     max_steering := max_steering self;
     max_velocity := max_velocity self;
     brake_deceleration := brake_deceleration self;
     free_deceleration := free_deceleration self;
     acceleration := a; steering := steering self |}.

Definition set_steering (self : t) (s : R) : t :=
  {| position := position self; velocity := velocity self;
     angle := angle self; length := length self;
     max_acceleration := max_acceleration self;
     max_steering := max_steering self;
     max_velocity := max_velocity self;
     brake_deceleration := brake_deceleration self;
     free_deceleration := free_deceleration self;
     acceleration := acceleration self; steering := s |}.

(** The velocity after lines 55-56: integrate, then clamp the forward
    component. *)
Definition integrate_velocity (self : t) (dt : R) : Vector2.t :=
  let v := Vector2.add (velocity self) (Vector2.mk (acceleration self * dt) 0) in
  Vector2.mk (py_max (- max_velocity self)
                     (py_min (Vector2.x v) (max_velocity self)))
             (Vector2.y v).

(** Lines 59-63. *)
Definition angular_velocity (self : t) (v : Vector2.t) : option R :=
  if truthy (steering self) then
    turning_radius <- py_div (length self) (sin (radians (steering self))) ;;
    py_div (Vector2.x v) turning_radius
  else Some 0.

(** [update(self, dt)] *)
Definition update (self : t) (dt : R) : option t :=
  let v := integrate_velocity self dt in
  w <- angular_velocity self v ;;
  Some {| position :=
            Vector2.add (position self)
                        (Vector2.scale (Vector2.rotate v (- angle self)) dt);
          velocity := v;
          angle := angle self + degrees w * dt;
          length := length self;
          max_acceleration := max_acceleration self;
          max_steering := max_steering self;
          max_velocity := max_velocity self;
          brake_deceleration := brake_deceleration self;
          free_deceleration := free_deceleration self;
          acceleration := acceleration self;
          steering := steering self |}.

End EGO_Car.

(** ** class O_Car *)

Module O_Car.

Record t : Type := mk {
  position : Vector2.t;
  velocity : R * R
}.

(** [__init__(self, vel, x, y)] *)
Definition init (vel x y : R) : t :=
  {| position := Vector2.mk x y; velocity := (0, vel) |}.

(** [update(self, dt)]: [self.position += np.array(self.velocity) * dt] *)
Definition update (self : t) (dt : R) : t :=
  {| position :=
       Vector2.add (position self)
                   (Vector2.mk (fst (velocity self) * dt)
                               (snd (velocity self) * dt));
     velocity := velocity self |}.

End O_Car.

(** ** class Start: the loop of [run] *)

(** The keys the loop reads from [pygame.key.get_pressed()]. *)
Record keys : Type := mk_keys {
  K_UP : bool;
  K_DOWN : bool;
  K_RIGHT : bool;
  K_LEFT : bool
}.

Definition no_keys : keys := mk_keys false false false false.

(** What one iteration receives from outside: the clock's elapsed
    milliseconds, the pressed keys, and whether a QUIT event or the escape
    key was seen. *)
Record frame : Type := mk_frame {
  get_time : nat;
  pressed : keys;
  quit : bool
}.

(** The vehicles created at the top of [run]. *)
Record world : Type := mk_world {
  ecar : EGO_Car.t;
  amu : O_Car.t;
  car1 : O_Car.t;
  car2 : O_Car.t;
  car3 : O_Car.t;
  car4 : O_Car.t;
  car5 : O_Car.t
}.

(** Lines 139-146; [random_offset] is [6 + 2 * random.random()]. *)
Definition initial_world (random_offset : R) : world :=
  {| ecar := EGO_Car.init random_offset 64 90 4 30 5;
     amu := O_Car.init (831 / 100) 7 70;
     car3 := O_Car.init (831 / 100) 7 57;
     car1 := O_Car.init (831 / 100) 3 89;
     car2 := O_Car.init (831 / 100) (115 / 10) 20;
     car4 := O_Car.init (831 / 100) 3 57;
     car5 := O_Car.init (831 / 100) (115 / 10) 57 |}.

(** [dt = self.clock.get_time() / 1000] *)
Definition dt_of (ms : nat) : R := INR ms / 1000.

(** [max(-m, min(a, m))] *)
Definition clamp (a m : R) : R := py_max (- m) (py_min a m).

(** Lines 161-176: the acceleration chosen from the keys, before the clamp
    of line 177. *)
Definition longitudinal (dt : R) (p : keys) (c : EGO_Car.t) : R :=
  let vx := Vector2.x (EGO_Car.velocity c) in
  if K_UP p then
    if vx <? 0 then EGO_Car.brake_deceleration c
    else EGO_Car.acceleration c + 1 * dt
  else if K_DOWN p then
    if vx >? 0 then -1 * EGO_Car.brake_deceleration c
    else EGO_Car.acceleration c - 1 * dt
  else
    if Rabs vx >? dt * EGO_Car.free_deceleration c
    then - copysign (EGO_Car.free_deceleration c) vx
    else if truthy dt then - vx / dt else EGO_Car.acceleration c.

(** Lines 179-184: the steering angle chosen from the keys, before the clamp
    of line 185. *)
Definition lateral (dt : R) (p : keys) (c : EGO_Car.t) : R :=
  if K_RIGHT p then EGO_Car.steering c - 30 * dt
  else if K_LEFT p then EGO_Car.steering c + 30 * dt
  else 0.

(** Lines 161-185. *)
Definition control (dt : R) (p : keys) (c : EGO_Car.t) : EGO_Car.t :=
  let c1 :=
    EGO_Car.set_acceleration c
      (clamp (longitudinal dt p c) (EGO_Car.max_acceleration c)) in
  EGO_Car.set_steering c1
    (clamp (lateral dt p c1) (EGO_Car.max_steering c1)).

(** Lines 161-194: controls, then the update of every vehicle.  The
    display copies of the positions (lines 197-203) hold the same numbers;
    the log file and the rendering read the state and do not change it. *)
Definition tick (dt : R) (p : keys) (w : world) : option world :=
  e <- EGO_Car.update (control dt p (ecar w)) dt ;;
  Some {| ecar := e;
          amu := O_Car.update (amu w) (- dt);
          car1 := O_Car.update (car1 w) (- dt);
          car2 := O_Car.update (car2 w) (- dt);
          car3 := O_Car.update (car3 w) (- dt);
          car4 := O_Car.update (car4 w) (- dt);
          car5 := O_Car.update (car5 w) (- dt) |}.

(** One clause of the end condition (lines 225-230):
    [(-4 < ego.y - o.y < 4) and (-2 < ego.x - o.x < 2)]. *)
Definition close_to (e o : Vector2.t) : bool :=
  ((-4 <? Vector2.y e - Vector2.y o) && (Vector2.y e - Vector2.y o <? 4))
  && ((-2 <? Vector2.x e - Vector2.x o) && (Vector2.x e - Vector2.x o <? 2)).

(** What the loop prints when it breaks. *)
Inductive outcome : Type :=
| End_of_the_round
| Crash.

(** Lines 224-236: [Some o] when the loop breaks having printed [o], [None]
    when it goes on to the next iteration. *)
Definition end_condition (w : world) : option outcome :=
  let e := EGO_Car.position (ecar w) in
  let a := O_Car.position (amu w) in
  if (Vector2.y a <? 1)
     || close_to e a
     || close_to e (O_Car.position (car3 w))
     || close_to e (O_Car.position (car2 w))
     || close_to e (O_Car.position (car1 w))
     || close_to e (O_Car.position (car4 w))
     || close_to e (O_Car.position (car5 w))
     || ((Vector2.x e >? 145 / 10) || (Vector2.x e <? 0))
  then Some (if Vector2.y a <? 1 then End_of_the_round else Crash)
  else None.

(** How [run] ends on a finite supply of frames. *)
Inductive result : Type :=
| Broke (o : outcome) (w : world)      (* [break] after printing [o] *)
| Exited (w : world)                   (* [self.exit] ended the [while] *)
| Pending (w : world)                  (* the frames ran out *)
| ZeroDivisionError.

(** The [while not self.exit] loop; [exit] is [self.exit]. *)
Fixpoint run (exit : bool) (fs : list frame) (w : world) : result :=
  if exit then Exited w
  else
    match fs with
    | [] => Pending w
    | f :: rest =>
        match tick (dt_of (get_time f)) (pressed f) w with
        | None => ZeroDivisionError
        | Some w' =>
            match end_condition w' with
            | Some o => Broke o w'
            | None => run (quit f) rest w'
            end
        end
    end.

(** The worlds the loop passes through, one per completed update. *)
Fixpoint trace (exit : bool) (fs : list frame) (w : world) : list world :=
  if exit then []
  else
    match fs with
    | [] => []
    | f :: rest =>
        match tick (dt_of (get_time f)) (pressed f) w with
        | None => []
        | Some w' =>
            w' :: match end_condition w' with
                  | Some _ => []
                  | None => trace (quit f) rest w'
                  end
        end
    end.

(** ** The event queue (lines 155-158)

    [run] above takes the keys of each iteration as given.  In the source
    the variable [pressed] is bound only inside the [for event in
    pygame.event.get()] loop: an iteration whose queue is empty keeps the
    keys of the iteration before, and there are none to keep if no event
    has been handled yet. *)

(** What [pygame.key.get_pressed()] returns, as far as the loop reads it. *)
Record keyboard : Type := mk_keyboard {
  arrows : keys;
  K_ESCAPE : bool
}.

(** An event of the queue: whether its type is [pygame.QUIT], and the key
    state that [get_pressed()] returns while it is handled. *)
Record event : Type := mk_event {
  is_QUIT : bool;
  get_pressed : keyboard
}.

(** One iteration as the program meets it: the clock reading and the queue
    that [pygame.event.get()] returns. *)
Record iteration : Type := mk_iteration {
  clock : nat;
  queue : list event
}.

(** Lines 155-158 on [pressed] (unbound is [None]) and [self.exit]. *)
Definition poll (q : list event) (st : option keyboard * bool)
  : option keyboard * bool :=
  fold_left
    (fun st e =>
       (Some (get_pressed e),
        snd st || is_QUIT e || K_ESCAPE (get_pressed e)))
    q st.

Inductive polled_result : Type :=
| Ran (r : result)
| UnboundLocalError.     (* line 161 read [pressed] before any event bound it *)

(** The [while not self.exit] loop with its event handling. *)
Fixpoint run_polled (exit : bool) (pr : option keyboard)
  (its : list iteration) (w : world) : polled_result :=
  if exit then Ran (Exited w)
  else
    match its with
    | [] => Ran (Pending w)
    | it :: rest =>
        let st := poll (queue it) (pr, exit) in
        match fst st with
        | None => UnboundLocalError
        | Some k =>
            match tick (dt_of (clock it)) (arrows k) w with
            | None => Ran ZeroDivisionError
            | Some w' =>
                match end_condition w' with
                | Some o => Ran (Broke o w')
                | None => run_polled (snd st) (fst st) rest w'
                end
            end
        end
    end.

(** The frames that [run] is given when the keys are bound throughout. *)
Fixpoint frames_of (pr : option keyboard) (its : list iteration)
  : option (list frame) :=
  match its with
  | [] => Some []
  | it :: rest =>
      let st := poll (queue it) (pr, false) in
      k <- fst st ;;
      fs <- frames_of (fst st) rest ;;
      Some (mk_frame (clock it) (arrows k) (snd st) :: fs)
  end.

(** ** The longitudinal channel over binary64

    Lines 161-177 and 55-56 again, this time on the floats the program
    computes with.  The forward speed and the acceleration depend on nothing
    else of the state, so the channel can be run on its own. *)

Module Binary64.

Local Open Scope float_scope.

Definition py_min (a b : float) : float := if b <? a then b else a.
Definition py_max (a b : float) : float := if a <? b then b else a.
Definition clamp (a m : float) : float := py_max (- m) (py_min a m).

(** [math.copysign(m, s)] *)
Definition copysign (m s : float) : float :=
  match classify s with
  | NInf | NNormal | NSubn | NZero => - abs m
  | _ => abs m
  end.

(** The fields of [EGO_Car] the channel reads and writes. *)
Record car : Type := mk {
  velocity_x : float;
  acceleration : float;
  max_acceleration : float;
  max_velocity : float;
  brake_deceleration : float;
  free_deceleration : float
}.

(** [EGO_Car(random_offset, 64, angle=90.0)] *)
Definition init : car :=
  {| velocity_x := 8.31;
     acceleration := 0;
     max_acceleration := 5;
     max_velocity := 13.85;
     brake_deceleration := 5;
     free_deceleration := 1 |}.

(** [dt = self.clock.get_time() / 1000] *)
Definition dt_of (ms : PrimInt63.int) : float := of_uint63 ms / 1000.

(** Lines 161-176. *)
Definition longitudinal (dt : float) (up down : bool) (c : car) : float :=
  let vx := velocity_x c in
  if up then
    if vx <? 0 then brake_deceleration c else acceleration c + 1 * dt
  else if down then
    if 0 <? vx then -1 * brake_deceleration c else acceleration c - 1 * dt
  else
    if dt * free_deceleration c <? abs vx
    then - copysign (free_deceleration c) vx
    else if negb (dt =? 0) then - vx / dt else acceleration c.



End Binary64.

(** ** Vocabulary of the properties *)

(** The three limits of the ego vehicle hold. *)
Definition within_limits (c : EGO_Car.t) : Prop :=
  Rabs (Vector2.x (EGO_Car.velocity c)) <= EGO_Car.max_velocity c
  /\ Rabs (EGO_Car.steering c) <= EGO_Car.max_steering c
  /\ Rabs (EGO_Car.acceleration c) <= EGO_Car.max_acceleration c.

(** The limits are non-negative numbers, so that [-m .. m] is an interval. *)
Definition nonneg_limits (c : EGO_Car.t) : Prop :=
  0 <= EGO_Car.max_velocity c
  /\ 0 <= EGO_Car.max_steering c
  /\ 0 <= EGO_Car.max_acceleration c.

(** The fields fixed at construction. *)
Definition same_constants (c c' : EGO_Car.t) : Prop :=
  EGO_Car.length c' = EGO_Car.length c
  /\ EGO_Car.max_acceleration c' = EGO_Car.max_acceleration c
  /\ EGO_Car.max_steering c' = EGO_Car.max_steering c
  /\ EGO_Car.max_velocity c' = EGO_Car.max_velocity c
  /\ EGO_Car.brake_deceleration c' = EGO_Car.brake_deceleration c
  /\ EGO_Car.free_deceleration c' = EGO_Car.free_deceleration c.

(** An ego vehicle on which [update] cannot divide by zero once the steering
    has been clamped: a non-zero wheelbase and a steering limit below a half
    turn. *)
Definition drivable (c : EGO_Car.t) : Prop :=
  EGO_Car.length c <> 0 /\ 0 <= EGO_Car.max_steering c < 180.

(** The non-controlled vehicles, in the order of the end condition. *)
Definition others (w : world) : list O_Car.t :=
  [amu w; car3 w; car2 w; car1 w; car4 w; car5 w].

(** The priority vehicle has left the scene. *)
Definition exited (w : world) : Prop :=
  Vector2.y (O_Car.position (amu w)) < 1.

(** The ego vehicle is outside the corridor. *)
Definition out_of_bounds (w : world) : Prop :=
  Vector2.x (EGO_Car.position (ecar w)) > 145 / 10
  \/ Vector2.x (EGO_Car.position (ecar w)) < 0.

(** The proximity box of the specification around a position. *)
Definition in_box (e o : Vector2.t) : Prop :=
  Rabs (Vector2.y e - Vector2.y o) < 4 /\ Rabs (Vector2.x e - Vector2.x o) < 2.

(** No up or down key in any frame. *)
Definition coasting (fs : list frame) : Prop :=
  Forall (fun f => K_UP (pressed f) = false /\ K_DOWN (pressed f) = false) fs.

(** A non-controlled vehicle after [update] has been called with each of
    the given time steps in turn. *)
Definition O_Car_updates (dts : list R) (c : O_Car.t) : O_Car.t :=
  fold_left O_Car.update dts c.

(** The x-coordinates of the non-controlled vehicles. *)
Definition lanes (w : world) : list R :=
  map (fun o => Vector2.x (O_Car.position o)) (others w).

(** The ego-to-agent lateral separations. *)
Definition lateral_separations (w : world) : list R :=
  map (fun o => Vector2.x (EGO_Car.position (ecar w))
                - Vector2.x (O_Car.position o)) (others w).

(** No non-controlled vehicle has a lateral velocity. *)
Definition no_lateral_velocity (w : world) : Prop :=
  Forall (fun o => fst (O_Car.velocity o) = 0) (others w).

(** Constants with which coasting is not cut short by a clamp: the free
    deceleration fits within the acceleration limit. *)
Definition coastable (c : EGO_Car.t) : Prop :=
  0 <= EGO_Car.free_deceleration c <= EGO_Car.max_acceleration c
  /\ 0 <= EGO_Car.max_velocity c.

(** The ego vehicle with its steering wheel turned to the limit of 30
    degrees, at the speed and wheelbase of the start. *)
Definition steering_pinned : EGO_Car.t :=
  EGO_Car.set_steering (EGO_Car.init 7 64 90 4 30 5) 30.

(** ** Scenes used as concrete inputs *)

(** The ego vehicle at (7, 64) with the priority vehicle three units ahead
    of it in the same lane; the other vehicles as at the start. *)
Definition crash_scene : world :=
  {| ecar := EGO_Car.init 7 64 90 4 30 5;
     amu := O_Car.init (831 / 100) 7 67;
     car3 := O_Car.init (831 / 100) 7 57;
     car1 := O_Car.init (831 / 100) 3 89;
     car2 := O_Car.init (831 / 100) (115 / 10) 20;
     car4 := O_Car.init (831 / 100) 3 57;
     car5 := O_Car.init (831 / 100) (115 / 10) 57 |}.

(** The start of the program, but with the ego vehicle at x = 15, past the
    right edge of the corridor and away from every other vehicle. *)
Definition off_road_scene : world := initial_world 15.

(** The priority vehicle below y = 1 while the ego vehicle is outside the
    corridor. *)
Definition finish_scene : world :=
  {| ecar := EGO_Car.init 15 64 90 4 30 5;
     amu := O_Car.init (831 / 100) 7 (1 / 2);
     car3 := O_Car.init (831 / 100) 7 57;
     car1 := O_Car.init (831 / 100) 3 89;
     car2 := O_Car.init (831 / 100) (115 / 10) 20;
     car4 := O_Car.init (831 / 100) 3 57;
     car5 := O_Car.init (831 / 100) (115 / 10) 57 |}.

(** ** The log record and the loop's prints (lines 209-221)

    [str] of a float is kept as the float it prints; the commas and the
    newline are those of the source, the leading comma included. *)

Inductive piece : Type :=
| Comma
| Str (x : R)
| Newline.

Inductive output : Type :=
| Append_to_Right_txt (line : list piece)
| Print_simulation_time.

(** The output of one iteration, between the updates and the test of the
    end condition. *)
Definition logging (w : world) : output :=
  if Vector2.y (O_Car.position (amu w)) >? 1 then
    Append_to_Right_txt
      [Comma;
       Str (Vector2.x (O_Car.position (amu w))
            - Vector2.x (EGO_Car.position (ecar w)));
       Comma;
       Str (Vector2.x (EGO_Car.velocity (ecar w)));
       Comma;
       Str (EGO_Car.acceleration (ecar w));
       Newline]
  else Print_simulation_time.

(** ** More vocabulary *)

(** The simulated time of a list of frames. *)
Definition elapsed (fs : list frame) : R :=
  fold_right (fun f t => dt_of (get_time f) + t) 0 fs.

(** The updates of the frames in sequence, without the loop's tests. *)
Fixpoint ticks (fs : list frame) (w : world) : option world :=
  match fs with
  | [] => Some w
  | f :: rest =>
      w' <- tick (dt_of (get_time f)) (pressed f) w ;; ticks rest w'
  end.

(** Neither steering key in any frame; the left key alone in every frame;
    the right key alone in every frame. *)
Definition hands_off (fs : list frame) : Prop :=
  Forall (fun f => K_RIGHT (pressed f) = false /\ K_LEFT (pressed f) = false) fs.

Definition steering_left (fs : list frame) : Prop :=
  Forall (fun f => K_RIGHT (pressed f) = false /\ K_LEFT (pressed f) = true) fs.

Definition steering_right (fs : list frame) : Prop :=
  Forall (fun f => K_RIGHT (pressed f) = true) fs.

(** The ego vehicle heads straight down the corridor: heading 90 degrees and
    no sideways component in its velocity vector. *)
Definition heading_down (c : EGO_Car.t) : Prop :=
  EGO_Car.angle c = 90 /\ Vector2.y (EGO_Car.velocity c) = 0.

(** * Properties *)

(** ** Comparisons, clamping and the trigonometric guard *)

Lemma Rltb_true (a b : R) : (a <? b) = true <-> a < b.
Proof.
  unfold Rltb. destruct (Rlt_dec a b); split; intros; try easy; try lra.
Qed.

Lemma Rltb_false (a b : R) : (a <? b) = false <-> b <= a.
Proof.
  unfold Rltb. destruct (Rlt_dec a b); split; intros; try easy; try lra.
Qed.

Lemma truthy_true (a : R) : truthy a = true <-> a <> 0.
Proof.
  unfold truthy. destruct (Req_dec_T a 0); split; intros; try easy; try lra.
Qed.

Lemma truthy_false (a : R) : truthy a = false <-> a = 0.
Proof.
  unfold truthy. destruct (Req_dec_T a 0); split; intros; try easy; try lra.
Qed.

(** Case analysis on every comparison of the goal, innermost first. *)
Ltac plain t :=
  lazymatch t with
  | context [Rlt_dec _ _] => fail
  | context [Req_dec_T _ _] => fail
  | context [Rcase_abs _] => fail
  | _ => idtac
  end.

Ltac by_cases :=
  unfold clamp, py_max, py_min, copysign, truthy, Rgtb, Rltb, Rabs;
  repeat match goal with
         | |- context [Rlt_dec ?a ?b] =>
             plain a; plain b; destruct (Rlt_dec a b); try (exfalso; lra)
         | |- context [Req_dec_T ?a ?b] =>
             plain a; plain b; destruct (Req_dec_T a b); try (exfalso; lra)
         | |- context [Rcase_abs ?a] =>
             plain a; destruct (Rcase_abs a); try (exfalso; lra)
         end.

(** Comparisons between numbers that linear arithmetic can order are
    replaced by their truth value. *)
Ltac compare_numbers :=
  unfold Rgtb;
  repeat match goal with
         | |- context [Rltb ?a ?b] =>
             first [ rewrite (proj2 (Rltb_true a b)) by lra
                   | rewrite (proj2 (Rltb_false a b)) by lra ]
         end;
  cbn [orb andb negb].

(** Record projections applied to record literals are reduced, and nothing
    else. *)
Ltac fields :=
  cbn [ecar amu car1 car2 car3 car4 car5
       EGO_Car.position EGO_Car.velocity EGO_Car.angle EGO_Car.length
       EGO_Car.max_acceleration EGO_Car.max_steering EGO_Car.max_velocity
       EGO_Car.brake_deceleration EGO_Car.free_deceleration
       EGO_Car.acceleration EGO_Car.steering
       O_Car.position O_Car.velocity Vector2.x Vector2.y
       K_UP K_DOWN K_RIGHT K_LEFT get_time pressed quit fst snd].

Lemma clamp_range (a m : R) : 0 <= m -> - m <= clamp a m <= m.
Proof. intros Hm. by_cases; lra. Qed.

Lemma clamp_abs (a m : R) : 0 <= m -> Rabs (clamp a m) <= m.
Proof.
  intros Hm. apply Rabs_le. now apply clamp_range.
Qed.

Lemma Rabs_le_between (a b : R) : Rabs a <= b -> - b <= a <= b.
Proof. unfold Rabs. destruct (Rcase_abs a); lra. Qed.

Lemma clamp_inside (a m : R) : - m <= a <= m -> clamp a m = a.
Proof. intros Ha. by_cases; lra. Qed.

(** The sine of a steering angle strictly between -180 and 180 degrees
    vanishes only at 0. *)
Lemma sin_radians_nonzero (s : R) :
  s <> 0 -> -180 < s < 180 -> sin (radians s) <> 0.
Proof.
  intros Hs [Hlo Hhi]. unfold radians.
  assert (HPI := PI_RGT_0).
  replace (s * PI / 180) with (s / 180 * PI) by field.
  destruct (Rlt_dec 0 s) as [Hpos | Hneg].
  - assert (0 < s / 180 < 1) as [H0 H1] by lra.
    assert (0 < sin (s / 180 * PI)); [ | lra ].
    apply sin_gt_0; nra.
  - assert (0 < - (s / 180) < 1) as [H0 H1] by lra.
    assert (0 < sin (- (s / 180 * PI))) as H.
    { apply sin_gt_0; nra. }
    rewrite sin_neg in H. lra.
Qed.

(** ** [EGO_Car.update] and the controls, field by field *)

Lemma update_inv (c c' : EGO_Car.t) (dt : R) :
  EGO_Car.update c dt = Some c' ->
  EGO_Car.velocity c' = EGO_Car.integrate_velocity c dt
  /\ EGO_Car.acceleration c' = EGO_Car.acceleration c
  /\ EGO_Car.steering c' = EGO_Car.steering c
  /\ same_constants c c'.
Proof.
  unfold EGO_Car.update, bind.
  destruct (EGO_Car.angular_velocity c _); [ | discriminate ].
  intros [= <-]. cbn. unfold same_constants. cbn. tauto.
Qed.

Lemma control_constants (dt : R) (p : keys) (c : EGO_Car.t) :
  same_constants c (control dt p c).
Proof. unfold same_constants, control. cbn. tauto. Qed.

Lemma control_velocity (dt : R) (p : keys) (c : EGO_Car.t) :
  EGO_Car.velocity (control dt p c) = EGO_Car.velocity c.
Proof. reflexivity. Qed.

Lemma control_acceleration (dt : R) (p : keys) (c : EGO_Car.t) :
  EGO_Car.acceleration (control dt p c)
  = clamp (longitudinal dt p c) (EGO_Car.max_acceleration c).
Proof. reflexivity. Qed.

Lemma control_steering (dt : R) (p : keys) (c : EGO_Car.t) :
  EGO_Car.steering (control dt p c)
  = clamp (lateral dt p c) (EGO_Car.max_steering c).
Proof. reflexivity. Qed.

Lemma integrate_velocity_limit (c : EGO_Car.t) (dt : R) :
  0 <= EGO_Car.max_velocity c ->
  Rabs (Vector2.x (EGO_Car.integrate_velocity c dt)) <= EGO_Car.max_velocity c.
Proof.
  intros Hm. unfold EGO_Car.integrate_velocity. cbn.
  now apply (clamp_abs _ (EGO_Car.max_velocity c)).
Qed.

(** [update] raises exactly when the steering is non-zero and the wheelbase
    or the sine of the steering angle is zero. *)
Lemma update_total (c : EGO_Car.t) (dt : R) :
  EGO_Car.length c <> 0 ->
  (EGO_Car.steering c <> 0 -> sin (radians (EGO_Car.steering c)) <> 0) ->
  exists c', EGO_Car.update c dt = Some c'.
Proof.
  intros HL Hs. unfold EGO_Car.update, EGO_Car.angular_velocity, bind, py_div.
  destruct (truthy (EGO_Car.steering c)) eqn:Ht.
  - apply truthy_true in Ht. specialize (Hs Ht).
    apply truthy_true in Hs. rewrite Hs.
    assert (EGO_Car.length c / sin (radians (EGO_Car.steering c)) <> 0) as Hr.
    { apply truthy_true in Hs. unfold Rdiv.
      apply Rmult_integral_contrapositive_currified; [ exact HL | ].
      now apply Rinv_neq_0_compat. }
    apply truthy_true in Hr. rewrite Hr. eauto.
  - eauto.
Qed.

Lemma tick_inv (dt : R) (p : keys) (w w' : world) :
  tick dt p w = Some w' ->
  EGO_Car.update (control dt p (ecar w)) dt = Some (ecar w')
  /\ amu w' = O_Car.update (amu w) (- dt)
  /\ car1 w' = O_Car.update (car1 w) (- dt)
  /\ car2 w' = O_Car.update (car2 w) (- dt)
  /\ car3 w' = O_Car.update (car3 w) (- dt)
  /\ car4 w' = O_Car.update (car4 w) (- dt)
  /\ car5 w' = O_Car.update (car5 w) (- dt).
Proof.
  unfold tick, bind.
  destruct (EGO_Car.update _ _); [ | discriminate ].
  intros [= <-]. cbn. tauto.
Qed.

(** A tick of a drivable ego vehicle never raises, whatever [dt] is. *)
Lemma tick_total (dt : R) (p : keys) (w : world) :
  drivable (ecar w) -> exists w', tick dt p w = Some w'.
Proof.
  intros [HL [Hs0 Hs1]].
  destruct (update_total (control dt p (ecar w)) dt) as [c' Hc'].
  - exact HL.
  - intros Hnz. apply sin_radians_nonzero; [ exact Hnz | ].
    rewrite control_steering.
    pose proof (clamp_range (lateral dt p (ecar w))
                  (EGO_Car.max_steering (ecar w)) Hs0).
    cbn in *. lra.
  - unfold tick, bind. rewrite Hc'. eauto.
Qed.

Lemma tick_constants (dt : R) (p : keys) (w w' : world) :
  tick dt p w = Some w' -> same_constants (ecar w) (ecar w').
Proof.
  intros H. apply tick_inv in H. destruct H as [H _].
  apply update_inv in H. destruct H as (_ & _ & _ & H).
  unfold same_constants in *. cbn in *. tauto.
Qed.

Lemma tick_within_limits (dt : R) (p : keys) (w w' : world) :
  nonneg_limits (ecar w) ->
  tick dt p w = Some w' ->
  within_limits (ecar w').
Proof.
  intros (Hv & Hs & Ha) H. apply tick_inv in H. destruct H as [H _].
  apply update_inv in H.
  destruct H as (Ev & Ea & Es & (_ & Ka & Ks & Kv & _)).
  unfold within_limits. rewrite Ev, Ea, Es, Ka, Ks, Kv.
  rewrite control_acceleration, control_steering.
  repeat split.
  - now apply integrate_velocity_limit.
  - now apply clamp_abs.
  - now apply clamp_abs.
Qed.

(** ** The limits of the ego vehicle *)

Lemma nonneg_limits_constants (c c' : EGO_Car.t) :
  same_constants c c' -> nonneg_limits c -> nonneg_limits c'.
Proof.
  unfold same_constants, nonneg_limits.
  intros (_ & -> & -> & -> & _). tauto.
Qed.

(** C1. Along any run of the loop, whatever keys are held and whatever the
    clock returns, the world left by every tick has the ego vehicle within
    its limits: |velocity.x| <= max_velocity, |steering| <= max_steering and
    |acceleration| <= max_acceleration.  The limits are those of a vehicle
    whose three maxima are non-negative, as the constructor's are. *)
Theorem ego_limits_hold_after_every_tick
  (exit : bool) (fs : list frame) (w : world) :
  nonneg_limits (ecar w) ->
  Forall (fun w' => within_limits (ecar w')) (trace exit fs w).
Proof.
  revert exit w.
  induction fs as [ | f rest IH ]; intros exit w Hw.
  - destruct exit; constructor.
  - cbn [trace]. destruct exit; [ constructor | ].
    destruct (tick (dt_of (get_time f)) (pressed f) w) as [ w' | ] eqn:Ht;
      [ | constructor ].
    constructor.
    + eapply tick_within_limits; eassumption.
    + destruct (end_condition w'); [ constructor | ].
      apply IH. eapply nonneg_limits_constants; [ | exact Hw ].
      eapply tick_constants; eassumption.
Qed.

Lemma initial_nonneg_limits (off : R) : nonneg_limits (ecar (initial_world off)).
Proof. unfold nonneg_limits. cbn. lra. Qed.

Lemma initial_drivable (off : R) : drivable (ecar (initial_world off)).
Proof. unfold drivable. cbn. lra. Qed.

(** The theorem applied to the program's own start, with the up and right
    keys held for one 16 ms frame. *)
Lemma ego_limits_hold_after_every_tick_witness :
  nonneg_limits (ecar (initial_world 7))
  /\ Forall (fun w' => within_limits (ecar w'))
       (trace false [mk_frame 16 (mk_keys true false true false) false]
          (initial_world 7)).
Proof.
  split.
  - apply initial_nonneg_limits.
  - apply (ego_limits_hold_after_every_tick false
             [mk_frame 16 (mk_keys true false true false) false]
             (initial_world 7)).
    apply initial_nonneg_limits.
Defined.

(** The loop of a drivable vehicle never raises, so the trace has a world
    for the first frame at least. *)
Lemma drivable_constants (c c' : EGO_Car.t) :
  same_constants c c' -> drivable c -> drivable c'.
Proof.
  unfold same_constants, drivable. intros (-> & _ & -> & _). tauto.
Qed.

Lemma run_never_raises (exit : bool) (fs : list frame) (w : world) :
  drivable (ecar w) -> run exit fs w <> ZeroDivisionError.
Proof.
  revert exit w.
  induction fs as [ | f rest IH ]; intros exit w Hw.
  - destruct exit; discriminate.
  - cbn [run]. destruct exit; [ discriminate | ].
    destruct (tick_total (dt_of (get_time f)) (pressed f) w Hw) as [w' Hw'].
    rewrite Hw'. destruct (end_condition w'); [ discriminate | ].
    apply IH. eapply drivable_constants; [ | exact Hw ].
    eapply tick_constants; eassumption.
Qed.

Lemma trace_starts (f : frame) (rest : list frame) (w : world) :
  drivable (ecar w) -> trace false (f :: rest) w <> [].
Proof.
  intros Hw. cbn [trace].
  destruct (tick_total (dt_of (get_time f)) (pressed f) w Hw) as [w' Hw'].
  rewrite Hw'. discriminate.
Qed.

(** ** The end condition *)

Lemma close_to_iff (e o : Vector2.t) : close_to e o = true <-> in_box e o.
Proof.
  unfold close_to, in_box.
  rewrite !andb_true_iff, !Rltb_true.
  split.
  - intros [[? ?] [? ?]]. split; apply Rabs_def1; lra.
  - intros [Hy Hx]. apply Rabs_def2 in Hy. apply Rabs_def2 in Hx. lra.
Qed.

Lemma close_to_false_iff (e o : Vector2.t) :
  close_to e o = false <-> ~ in_box e o.
Proof.
  rewrite <- close_to_iff. destruct (close_to e o); split; intros; easy.
Qed.

Lemma out_of_bounds_iff (w : world) :
  let e := EGO_Car.position (ecar w) in
  (Vector2.x e >? 145 / 10) || (Vector2.x e <? 0) = true <-> out_of_bounds w.
Proof.
  cbn. unfold out_of_bounds, Rgtb. rewrite orb_true_iff, !Rltb_true.
  unfold Rgt. tauto.
Qed.

(** The priority vehicle's exit decides the outcome by itself. *)
Lemma end_condition_exited (w : world) :
  exited w -> end_condition w = Some End_of_the_round.
Proof.
  unfold exited, end_condition. intros H.
  apply Rltb_true in H. rewrite H. reflexivity.
Qed.

(** Without it, the loop breaks exactly on a proximity box or on the
    corridor's bounds, and prints "Crash" for both. *)
Lemma end_condition_not_exited (w : world) :
  ~ exited w ->
  (end_condition w = Some Crash
   <-> Exists (fun o => in_box (EGO_Car.position (ecar w)) (O_Car.position o))
         (others w)
       \/ out_of_bounds w)
  /\ (end_condition w = None
      <-> Forall (fun o => ~ in_box (EGO_Car.position (ecar w))
                               (O_Car.position o)) (others w)
          /\ ~ out_of_bounds w)
  /\ end_condition w <> Some End_of_the_round.
Proof.
  intros Hx. unfold exited in Hx.
  assert ((Vector2.y (O_Car.position (amu w)) <? 1) = false) as Ha.
  { apply Rltb_false. lra. }
  pose proof (out_of_bounds_iff w) as Hb. cbn in Hb.
  unfold end_condition, others. rewrite Ha. cbn [orb].
  set (e := EGO_Car.position (ecar w)) in *.
  rewrite !Exists_cons, Exists_nil, !Forall_cons_iff. cbv beta.
  rewrite <- !close_to_iff, <- Hb.
  destruct (close_to e (O_Car.position (amu w)));
    destruct (close_to e (O_Car.position (car3 w)));
    destruct (close_to e (O_Car.position (car2 w)));
    destruct (close_to e (O_Car.position (car1 w)));
    destruct (close_to e (O_Car.position (car4 w)));
    destruct (close_to e (O_Car.position (car5 w)));
    destruct ((Vector2.x e >? 145 / 10) || (Vector2.x e <? 0));
    cbn; intuition (discriminate || auto using Forall_nil).
Qed.

(** ** A tick of zero duration *)

Lemma dt_of_0 : dt_of 0 = 0.
Proof. unfold dt_of. cbn. lra. Qed.

Lemma dt_of_nonneg (ms : nat) : 0 <= dt_of ms.
Proof.
  unfold dt_of. pose proof (pos_INR ms).
  apply Rmult_le_pos; [ assumption | lra ].
Qed.

Lemma Vector2_add_zero (u v : Vector2.t) :
  Vector2.add u (Vector2.scale v 0) = u.
Proof.
  destruct u as [ux uy]. unfold Vector2.add, Vector2.scale. cbn.
  f_equal; ring.
Qed.

Lemma O_update_zero (c : O_Car.t) : O_Car.update c (- 0) = c.
Proof.
  destruct c as [[px py] [vx vy]]. unfold O_Car.update, Vector2.add. cbn.
  do 2 f_equal; ring.
Qed.

Lemma integrate_velocity_zero (c : EGO_Car.t) :
  Rabs (Vector2.x (EGO_Car.velocity c)) <= EGO_Car.max_velocity c ->
  EGO_Car.integrate_velocity c 0 = EGO_Car.velocity c.
Proof.
  intros H. apply Rabs_le_between in H.
  unfold EGO_Car.integrate_velocity, Vector2.add.
  destruct (EGO_Car.velocity c) as [vx vy]. cbn in *.
  f_equal; [ | ring ].
  replace (vx + EGO_Car.acceleration c * 0) with vx by ring.
  now apply (clamp_inside vx (EGO_Car.max_velocity c)).
Qed.

Lemma update_zero_pose (c c' : EGO_Car.t) :
  EGO_Car.update c 0 = Some c' ->
  EGO_Car.position c' = EGO_Car.position c
  /\ EGO_Car.angle c' = EGO_Car.angle c.
Proof.
  unfold EGO_Car.update, bind.
  destruct (EGO_Car.angular_velocity c _); [ | discriminate ].
  intros [= <-]. cbn. split.
  - apply Vector2_add_zero.
  - ring.
Qed.

(** The end condition reads positions only. *)
Lemma end_condition_positions (w w' : world) :
  EGO_Car.position (ecar w') = EGO_Car.position (ecar w) ->
  map O_Car.position (others w') = map O_Car.position (others w) ->
  end_condition w' = end_condition w.
Proof.
  unfold others, end_condition. cbn [map].
  intros -> [= -> -> -> -> -> ->]. reflexivity.
Qed.

Lemma tick_zero (p : keys) (w : world) :
  drivable (ecar w) ->
  exists w',
    tick 0 p w = Some w'
    /\ EGO_Car.position (ecar w') = EGO_Car.position (ecar w)
    /\ EGO_Car.angle (ecar w') = EGO_Car.angle (ecar w)
    /\ (Rabs (Vector2.x (EGO_Car.velocity (ecar w)))
          <= EGO_Car.max_velocity (ecar w) ->
        EGO_Car.velocity (ecar w') = EGO_Car.velocity (ecar w))
    /\ others w' = others w
    /\ end_condition w' = end_condition w.
Proof.
  intros Hw. destruct (tick_total 0 p w Hw) as [w' Hw'].
  exists w'. split; [ exact Hw' | ].
  apply tick_inv in Hw'.
  destruct Hw' as (He & Ha & H1 & H2 & H3 & H4 & H5).
  rewrite O_update_zero in Ha, H1, H2, H3, H4, H5.
  destruct (update_zero_pose _ _ He) as [Hp Hang].
  apply update_inv in He. destruct He as (Hv & _).
  assert (others w' = others w) as Ho.
  { unfold others. now rewrite Ha, H1, H2, H3, H4, H5. }
  repeat split.
  - exact Hp.
  - exact Hang.
  - intros Hb. rewrite Hv.
    now apply (integrate_velocity_zero (control 0 p (ecar w))).
  - exact Ho.
  - apply end_condition_positions; [ exact Hp | now rewrite Ho ].
Qed.

(** ** Collisions *)

(** The scene of the specification: the loop breaks with "Crash". *)
Lemma crash_scene_crashes : end_condition crash_scene = Some Crash.
Proof.
  unfold end_condition, crash_scene, initial_world, close_to,
    EGO_Car.init, O_Car.init.
  cbn [ecar amu car1 car2 car3 car4 car5 EGO_Car.position O_Car.position
       Vector2.x Vector2.y].
  now compare_numbers.
Qed.

(** C2. A clause of the end condition holds for an agent exactly when
    |ego.y - other.y| < 4 and |ego.x - other.x| < 2; while the priority
    vehicle is in the scene and the ego vehicle is in the corridor, the loop
    breaks with "Crash" exactly when some agent is in that box; and with the
    ego vehicle at (7, 64) and an agent at (7, 67) it does so at once: on
    those positions, and in the first iteration of the loop, whose time step
    is zero. *)
Theorem collision_is_the_proximity_box :
  (forall e o : Vector2.t, close_to e o = true <-> in_box e o)
  /\ (forall w : world,
        ~ exited w -> ~ out_of_bounds w ->
        (end_condition w = Some Crash
         <-> Exists (fun o => in_box (EGO_Car.position (ecar w))
                                     (O_Car.position o)) (others w)))
  /\ (forall (w : world) (o : O_Car.t),
        EGO_Car.position (ecar w) = Vector2.mk 7 64 ->
        In o (others w) ->
        O_Car.position o = Vector2.mk 7 67 ->
        ~ exited w ->
        end_condition w = Some Crash
        /\ (drivable (ecar w) ->
            forall (p : keys) (q : bool) (rest : list frame),
            exists w', run false (mk_frame 0 p q :: rest) w = Broke Crash w'))
  /\ end_condition crash_scene = Some Crash.
Proof.
  split; [ exact close_to_iff | ].
  split; [ | split; [ | exact crash_scene_crashes ] ].
  - intros w Hx Hb.
    destruct (end_condition_not_exited w Hx) as (Hc & _).
    rewrite Hc. tauto.
  - intros w o He Hin Ho Hx.
    assert (end_condition w = Some Crash) as Hc.
    { apply (end_condition_not_exited w Hx). left.
      apply Exists_exists. exists o. split; [ exact Hin | ].
      rewrite He, Ho. unfold in_box. cbn [Vector2.x Vector2.y].
      split; apply Rabs_def1; lra. }
    split; [ exact Hc | ].
    intros Hd p q rest.
    destruct (tick_zero p w Hd) as (w' & Ht & _ & _ & _ & _ & Hend).
    exists w'. cbn [run get_time pressed]. rewrite dt_of_0, Ht, Hend, Hc.
    reflexivity.
Qed.

(** ** The order of the checks and the end of the loop *)

Lemma run_broke_app (exit : bool) (fs rest : list frame) (w w' : world)
  (o : outcome) :
  run exit fs w = Broke o w' ->
  run exit (fs ++ rest) w = Broke o w'
  /\ trace exit (fs ++ rest) w = trace exit fs w.
Proof.
  revert exit w.
  induction fs as [ | f fs IH ]; intros exit w.
  - cbn. destruct exit; discriminate.
  - cbn [run trace app]. destruct exit; [ discriminate | ].
    destruct (tick (dt_of (get_time f)) (pressed f) w) as [ w1 | ];
      [ | discriminate ].
    destruct (end_condition w1).
    + intros H. split; [ exact H | reflexivity ].
    + intros H. destruct (IH _ _ H) as [Hr Ht]. split; [ exact Hr | ].
      now rewrite Ht.
Qed.

(** C5. When the priority vehicle's y is below 1 the end condition yields
    "End of the round" whatever the other clauses say, and it yields it in
    no other case: the exit test comes first and is never reported as a
    crash.  Once the loop has broken, on either outcome, frames offered
    after that are not processed: the result and the worlds passed through
    are those of the run that ended there. *)
Theorem priority_exit_first_and_loop_stops (w : world) :
  (exited w ->
   end_condition w = Some End_of_the_round /\ end_condition w <> Some Crash)
  /\ (end_condition w = Some End_of_the_round -> exited w)
  /\ (forall (exit : bool) (fs rest : list frame) (o : outcome) (w' : world),
        run exit fs w = Broke o w' ->
        run exit (fs ++ rest) w = Broke o w'
        /\ trace exit (fs ++ rest) w = trace exit fs w).
Proof.
  split; [ | split ].
  - intros Hx. rewrite (end_condition_exited w Hx). split; congruence.
  - intros He.
    destruct (Rlt_dec (Vector2.y (O_Car.position (amu w))) 1) as [ Hx | Hx ];
      [ exact Hx | ].
    now destruct (end_condition_not_exited w Hx) as (_ & _ & Hn).
  - intros exit fs rest o w'. apply run_broke_app.
Qed.

(** The theorem on two scenes: the priority vehicle's exit wins over the
    corridor's bounds, and a run that has broken on a crash ignores a
    further frame. *)
Lemma priority_exit_first_and_loop_stops_witness :
  (exited finish_scene /\ out_of_bounds finish_scene
   /\ end_condition finish_scene = Some End_of_the_round)
  /\ exists w',
       run false [mk_frame 0 no_keys false] crash_scene = Broke Crash w'
       /\ run false ([mk_frame 0 no_keys false] ++ [mk_frame 16 no_keys false])
            crash_scene = Broke Crash w'.
Proof.
  assert (exited finish_scene) as Hx.
  { unfold exited, finish_scene, O_Car.init. fields. lra. }
  split.
  - split; [ exact Hx | ]. split.
    + unfold out_of_bounds, finish_scene, EGO_Car.init. fields. left. lra.
    + apply (proj1 (priority_exit_first_and_loop_stops finish_scene) Hx).
  - assert (drivable (ecar crash_scene)) as Hd.
    { unfold drivable, crash_scene, EGO_Car.init. fields. lra. }
    destruct (tick_zero no_keys crash_scene Hd)
      as (w' & Ht & _ & _ & _ & _ & Hend).
    assert (run false [mk_frame 0 no_keys false] crash_scene = Broke Crash w')
      as Hrun.
    { cbn [run get_time pressed]. rewrite dt_of_0, Ht, Hend.
      now rewrite crash_scene_crashes. }
    exists w'. split; [ exact Hrun | ].
    apply (proj2 (proj2 (priority_exit_first_and_loop_stops crash_scene))
             false [mk_frame 0 no_keys false] [mk_frame 16 no_keys false]
             Crash w' Hrun).
Defined.

(** ** Leaving the corridor *)

Lemma off_road_scene_facts :
  out_of_bounds off_road_scene
  /\ ~ exited off_road_scene
  /\ Forall (fun o => ~ in_box (EGO_Car.position (ecar off_road_scene))
                              (O_Car.position o)) (others off_road_scene).
Proof.
  unfold out_of_bounds, exited, off_road_scene, initial_world, others, in_box,
    EGO_Car.init, O_Car.init.
  cbn [ecar amu car1 car2 car3 car4 car5 EGO_Car.position O_Car.position
       Vector2.x Vector2.y].
  split; [ left; lra | ]. split; [ lra | ].
  repeat (apply Forall_cons;
          [ cbn [O_Car.position Vector2.x Vector2.y];
            intros [Hy _]; apply Rabs_def2 in Hy; lra | ]).
  apply Forall_nil.
Qed.

Lemma crash_scene_facts :
  ~ out_of_bounds crash_scene
  /\ ~ exited crash_scene
  /\ in_box (EGO_Car.position (ecar crash_scene))
            (O_Car.position (amu crash_scene)).
Proof.
  unfold out_of_bounds, exited, crash_scene, in_box, EGO_Car.init, O_Car.init.
  cbn [ecar amu EGO_Car.position O_Car.position Vector2.x Vector2.y].
  split; [ lra | ]. split; [ lra | ].
  split; apply Rabs_def1; lra.
Qed.

(** C6, as the specification states it, fails: the ego vehicle outside the
    corridor and clear of every agent gets the very outcome that a collision
    inside the corridor gets.  The loop has two outcomes only; there is no
    out-of-bounds outcome that could differ from "Crash". *)
Lemma out_of_bounds_not_distinct_from_crash :
  (out_of_bounds off_road_scene
   /\ ~ exited off_road_scene
   /\ Forall (fun o => ~ in_box (EGO_Car.position (ecar off_road_scene))
                               (O_Car.position o)) (others off_road_scene))
  /\ (~ out_of_bounds crash_scene
      /\ ~ exited crash_scene
      /\ in_box (EGO_Car.position (ecar crash_scene))
                (O_Car.position (amu crash_scene)))
  /\ end_condition off_road_scene = Some Crash
  /\ end_condition off_road_scene = end_condition crash_scene.
Proof.
  pose proof off_road_scene_facts as Hoff.
  assert (end_condition off_road_scene = Some Crash) as Hc.
  { destruct Hoff as (Hb & Hx & _).
    apply (end_condition_not_exited _ Hx). now right. }
  split; [ exact Hoff | ].
  split; [ exact crash_scene_facts | ].
  split; [ exact Hc | ].
  now rewrite Hc, crash_scene_crashes.
Qed.

(** C6, amended. Whenever the ego vehicle's x is above 14.5 or below 0 and
    the priority vehicle has not exited, the loop breaks and prints "Crash",
    the outcome it also prints for a collision, whatever the positions of
    the other agents. *)
Theorem out_of_bounds_breaks_with_crash (w : world) :
  ~ exited w -> out_of_bounds w -> end_condition w = Some Crash.
Proof.
  intros Hx Hb. apply (end_condition_not_exited w Hx). now right.
Qed.

Lemma out_of_bounds_breaks_with_crash_witness :
  (~ exited off_road_scene /\ out_of_bounds off_road_scene)
  /\ end_condition off_road_scene = Some Crash.
Proof.
  destruct off_road_scene_facts as (Hb & Hx & _).
  split; [ split; assumption | ].
  apply (out_of_bounds_breaks_with_crash off_road_scene); assumption.
Defined.

(** ** Time steps *)


Lemma dt_of_16 : dt_of 16 = 2 / 125.
Proof. unfold dt_of. cbn [INR]. lra. Qed.

(** What a negative step does to the six who are not controlled. *)
Lemma others_advance (dt : R) (p : keys) (w w' : world) :
  tick dt p w = Some w' ->
  others w' = map (fun o => O_Car.update o (- dt)) (others w)
  /\ Forall2 (fun o o' =>
                Vector2.y (O_Car.position o')
                = Vector2.y (O_Car.position o) - snd (O_Car.velocity o) * dt
                /\ (0 < dt -> 0 < snd (O_Car.velocity o) ->
                    Vector2.y (O_Car.position o') < Vector2.y (O_Car.position o)))
       (others w) (others w').
Proof.
  intros Ht. apply tick_inv in Ht.
  destruct Ht as (_ & Ha & H1 & H2 & H3 & H4 & H5).
  unfold others. cbn [map]. rewrite Ha, H1, H2, H3, H4, H5.
  split; [ reflexivity | ].
  assert (forall o : O_Car.t,
             Vector2.y (O_Car.position (O_Car.update o (- dt)))
             = Vector2.y (O_Car.position o) - snd (O_Car.velocity o) * dt
             /\ (0 < dt -> 0 < snd (O_Car.velocity o) ->
                 Vector2.y (O_Car.position (O_Car.update o (- dt)))
                 < Vector2.y (O_Car.position o))) as Hone.
  { intros o. unfold O_Car.update, Vector2.add. fields.
    split; [ ring | ]. intros Hdt Hv.
    assert (0 < snd (O_Car.velocity o) * dt)
      by (apply Rmult_lt_0_compat; assumption).
    lra. }
  repeat (apply Forall2_cons; [ apply Hone | ]). apply Forall2_nil.
Qed.




(** C8. A tick whose clock reading is 0 ms, under any keys, leaves the ego
    vehicle's position, heading and velocity and every non-controlled
    vehicle as they were, and the loop still evaluates the end condition,
    on those unchanged positions.  The ego vehicle is one on which [update]
    is defined and whose speed is within its limit, as it is at the start
    and after every tick. *)
Theorem zero_dt_tick_is_a_query
  (p : keys) (q : bool) (rest : list frame) (w : world) :
  drivable (ecar w) ->
  Rabs (Vector2.x (EGO_Car.velocity (ecar w))) <= EGO_Car.max_velocity (ecar w) ->
  exists w',
    tick (dt_of 0) p w = Some w'
    /\ EGO_Car.position (ecar w') = EGO_Car.position (ecar w)
    /\ EGO_Car.angle (ecar w') = EGO_Car.angle (ecar w)
    /\ EGO_Car.velocity (ecar w') = EGO_Car.velocity (ecar w)
    /\ others w' = others w
    /\ end_condition w' = end_condition w
    /\ run false (mk_frame 0 p q :: rest) w
       = match end_condition w with
         | Some o => Broke o w'
         | None => run q rest w'
         end.
Proof.
  intros Hd Hv.
  destruct (tick_zero p w Hd) as (w' & Ht & Hp & Ha & Hvel & Ho & He).
  exists w'. rewrite dt_of_0.
  repeat split; try assumption.
  - now apply Hvel.
  - cbn [run get_time pressed quit]. rewrite dt_of_0, Ht, He. reflexivity.
Qed.

Lemma initial_speed_within_limit (off : R) :
  Rabs (Vector2.x (EGO_Car.velocity (ecar (initial_world off))))
  <= EGO_Car.max_velocity (ecar (initial_world off)).
Proof.
  unfold initial_world, EGO_Car.init. fields. apply Rabs_le. lra.
Qed.

Lemma zero_dt_tick_is_a_query_witness :
  let p := mk_keys true false true false in
  let w := initial_world 7 in
  (drivable (ecar w)
   /\ Rabs (Vector2.x (EGO_Car.velocity (ecar w))) <= EGO_Car.max_velocity (ecar w))
  /\ exists w',
       tick (dt_of 0) p w = Some w'
       /\ EGO_Car.position (ecar w') = EGO_Car.position (ecar w)
       /\ EGO_Car.angle (ecar w') = EGO_Car.angle (ecar w)
       /\ EGO_Car.velocity (ecar w') = EGO_Car.velocity (ecar w)
       /\ others w' = others w
       /\ end_condition w' = end_condition w
       /\ run false [mk_frame 0 p false] w
          = match end_condition w with
            | Some o => Broke o w'
            | None => run false [] w'
            end.
Proof.
  split.
  - split; [ apply initial_drivable | apply initial_speed_within_limit ].
  - apply (zero_dt_tick_is_a_query (mk_keys true false true false) false []
             (initial_world 7)).
    + apply initial_drivable.
    + apply initial_speed_within_limit.
Defined.

(** ** The non-controlled vehicles keep their lane *)

Lemma O_update_lane (c : O_Car.t) (dt : R) :
  fst (O_Car.velocity c) = 0 ->
  Vector2.x (O_Car.position (O_Car.update c dt)) = Vector2.x (O_Car.position c)
  /\ fst (O_Car.velocity (O_Car.update c dt)) = 0.
Proof.
  intros H. unfold O_Car.update, Vector2.add. fields. rewrite H.
  split; [ ring | reflexivity ].
Qed.

Lemma O_updates_lane (dts : list R) (c : O_Car.t) :
  fst (O_Car.velocity c) = 0 ->
  Vector2.x (O_Car.position (O_Car_updates dts c)) = Vector2.x (O_Car.position c).
Proof.
  unfold O_Car_updates. revert c.
  induction dts as [ | dt dts IH ]; intros c H; cbn [fold_left].
  - reflexivity.
  - destruct (O_update_lane c dt H) as [Hx Hv].
    rewrite (IH _ Hv). exact Hx.
Qed.

Lemma tick_lanes (dt : R) (p : keys) (w w' : world) :
  no_lateral_velocity w ->
  tick dt p w = Some w' ->
  lanes w' = lanes w /\ no_lateral_velocity w'.
Proof.
  unfold no_lateral_velocity, lanes, others.
  rewrite !Forall_cons_iff.
  intros (Ha & H3 & H2 & H1 & H4 & H5 & _) Ht.
  apply tick_inv in Ht. destruct Ht as (_ & -> & -> & -> & -> & -> & ->).
  cbn [map].
  destruct (O_update_lane _ (- dt) Ha) as [-> ?].
  destruct (O_update_lane _ (- dt) H1) as [-> ?].
  destruct (O_update_lane _ (- dt) H2) as [-> ?].
  destruct (O_update_lane _ (- dt) H3) as [-> ?].
  destruct (O_update_lane _ (- dt) H4) as [-> ?].
  destruct (O_update_lane _ (- dt) H5) as [-> ?].
  split; [ reflexivity | ].
  repeat (split; [ assumption | ]). apply Forall_nil.
Qed.

Lemma trace_lanes (exit : bool) (fs : list frame) (w : world) :
  no_lateral_velocity w ->
  Forall (fun w' => lanes w' = lanes w) (trace exit fs w).
Proof.
  revert exit w.
  induction fs as [ | f rest IH ]; intros exit w Hw.
  - destruct exit; constructor.
  - cbn [trace]. destruct exit; [ constructor | ].
    destruct (tick (dt_of (get_time f)) (pressed f) w) as [ w' | ] eqn:Ht;
      [ | constructor ].
    destruct (tick_lanes _ _ _ _ Hw Ht) as [Hl Hn].
    constructor; [ exact Hl | ].
    destruct (end_condition w'); [ constructor | ].
    rewrite <- Hl. now apply IH.
Qed.

Lemma initial_no_lateral_velocity (off : R) :
  no_lateral_velocity (initial_world off).
Proof.
  unfold no_lateral_velocity, others, initial_world, O_Car.init. fields.
  repeat (apply Forall_cons; [ reflexivity | ]). apply Forall_nil.
Qed.

(** C9. A vehicle built by [O_Car]'s constructor has velocity (0, vel), and
    its x-coordinate is the one it was built with after any number of
    updates with any time steps.  Along any run of the loop from the
    program's start the six non-controlled vehicles therefore stay at
    x = 7, 7, 11.5, 3, 3 and 11.5, and each ego-to-agent lateral separation
    is the ego vehicle's x minus that constant. *)
Theorem non_controlled_vehicles_keep_their_x :
  (forall vel x y : R, O_Car.velocity (O_Car.init vel x y) = (0, vel))
  /\ (forall (vel x y : R) (dts : list R),
        Vector2.x (O_Car.position (O_Car_updates dts (O_Car.init vel x y))) = x)
  /\ (forall (off : R) (exit : bool) (fs : list frame),
        Forall (fun w' =>
                  lanes w' = [7; 7; 115 / 10; 3; 3; 115 / 10]
                  /\ lateral_separations w'
                     = map (fun x => Vector2.x (EGO_Car.position (ecar w')) - x)
                         [7; 7; 115 / 10; 3; 3; 115 / 10])
               (trace exit fs (initial_world off))).
Proof.
  split; [ reflexivity | ]. split.
  - intros vel x y dts.
    now rewrite O_updates_lane.
  - intros off exit fs.
    pose proof (trace_lanes exit fs _ (initial_no_lateral_velocity off)) as H.
    eapply Forall_impl; [ | exact H ].
    intros w' Hl. cbv beta in Hl.
    assert (lanes w' = [7; 7; 115 / 10; 3; 3; 115 / 10]) as Hl'.
    { rewrite Hl. reflexivity. }
    split; [ exact Hl' | ].
    rewrite <- Hl'. unfold lateral_separations, lanes.
    now rewrite map_map.
Qed.

(** ** Opposing keys *)

(** C10. With the up and down keys both held, the tick is the one of the up
    key alone, and the acceleration it leaves is that of the accelerate
    branch (the brake deceleration when reversing, else the previous
    acceleration plus dt), clamped, with the speed integrated from it; the
    brake branch is not applied.  With the right and left keys both held,
    the tick is the one of the right key alone, and the steering angle it
    leaves is that of the steer-right branch, the previous angle minus
    30 * dt, clamped. *)
Theorem opposing_keys_precedence
  (dt : R) (w : world) (up down right left : bool) :
  tick dt (mk_keys true true right left) w
  = tick dt (mk_keys true false right left) w
  /\ tick dt (mk_keys up down true true) w
     = tick dt (mk_keys up down true false) w
  /\ (forall w' : world,
        tick dt (mk_keys true true right left) w = Some w' ->
        EGO_Car.acceleration (ecar w')
        = clamp (if Vector2.x (EGO_Car.velocity (ecar w)) <? 0
                 then EGO_Car.brake_deceleration (ecar w)
                 else EGO_Car.acceleration (ecar w) + 1 * dt)
            (EGO_Car.max_acceleration (ecar w))
        /\ Vector2.x (EGO_Car.velocity (ecar w'))
           = clamp (Vector2.x (EGO_Car.velocity (ecar w))
                    + EGO_Car.acceleration (ecar w') * dt)
               (EGO_Car.max_velocity (ecar w)))
  /\ (forall w' : world,
        tick dt (mk_keys up down true true) w = Some w' ->
        EGO_Car.steering (ecar w')
        = clamp (EGO_Car.steering (ecar w) - 30 * dt)
            (EGO_Car.max_steering (ecar w))).
Proof.
  split; [ reflexivity | ]. split; [ reflexivity | ].
  split; intros w' Ht; apply tick_inv in Ht; destruct Ht as [Hu _];
    apply update_inv in Hu; destruct Hu as (Hv & Ha & Hs & _).
  - split.
    + rewrite Ha. reflexivity.
    + rewrite Hv, Ha. reflexivity.
  - rewrite Hs. reflexivity.
Qed.

(** The theorem at the start of the program with a 16 ms frame, where the
    branches differ: with up and down held the acceleration is 0 + 0.016,
    although the down key alone would have set it to -5; with right and left
    held the steering angle is -0.48, although the left key alone would have
    set it to +0.48. *)
Lemma opposing_keys_precedence_witness :
  let w := initial_world 7 in
  (exists w',
     tick (dt_of 16) (mk_keys true true false false) w = Some w'
     /\ EGO_Car.acceleration (ecar w') = 2 / 125)
  /\ (exists w',
        tick (dt_of 16) (mk_keys false true false false) w = Some w'
        /\ EGO_Car.acceleration (ecar w') = - 5)
  /\ (exists w',
        tick (dt_of 16) (mk_keys false false true true) w = Some w'
        /\ EGO_Car.steering (ecar w') = - (12 / 25))
  /\ (exists w',
        tick (dt_of 16) (mk_keys false false false true) w = Some w'
        /\ EGO_Car.steering (ecar w') = 12 / 25).
Proof.
  cbv zeta.
  pose proof (opposing_keys_precedence (dt_of 16) (initial_world 7)
                false false false false) as (_ & _ & Hud & Hrl).
  repeat split.
  - destruct (tick_total (dt_of 16) (mk_keys true true false false)
                (initial_world 7) (initial_drivable 7)) as [w' Ht].
    exists w'. split; [ exact Ht | ].
    destruct (Hud w' Ht) as [Ha _]. rewrite Ha, dt_of_16.
    unfold initial_world, EGO_Car.init. fields.
    rewrite (proj2 (Rltb_false _ 0)) by lra.
    rewrite clamp_inside; lra.
  - destruct (tick_total (dt_of 16) (mk_keys false true false false)
                (initial_world 7) (initial_drivable 7)) as [w' Ht].
    exists w'. split; [ exact Ht | ].
    apply tick_inv in Ht. destruct Ht as [Hu _].
    apply update_inv in Hu. destruct Hu as (_ & Ha & _).
    rewrite Ha, control_acceleration.
    unfold longitudinal, initial_world, EGO_Car.init, Rgtb. fields.
    rewrite (proj2 (Rltb_true 0 _)) by lra.
    rewrite clamp_inside; lra.
  - destruct (tick_total (dt_of 16) (mk_keys false false true true)
                (initial_world 7) (initial_drivable 7)) as [w' Ht].
    exists w'. split; [ exact Ht | ].
    rewrite (Hrl w' Ht), dt_of_16.
    unfold initial_world, EGO_Car.init. fields.
    rewrite clamp_inside; lra.
  - destruct (tick_total (dt_of 16) (mk_keys false false false true)
                (initial_world 7) (initial_drivable 7)) as [w' Ht].
    exists w'. split; [ exact Ht | ].
    apply tick_inv in Ht. destruct Ht as [Hu _].
    apply update_inv in Hu. destruct Hu as (_ & _ & Hs & _).
    rewrite Hs, control_steering, dt_of_16.
    unfold lateral, initial_world, EGO_Car.init. fields.
    rewrite clamp_inside; lra.
Defined.

(** ** The heading *)

(** C3. For every update: with a non-zero steering angle the heading grows
    by degrees(velocity.x / (length / sin(radians(steering)))) * dt, which is
    degrees(velocity.x * sin(radians(steering)) / length) * dt, where
    velocity.x is the speed just integrated and clamped; with a zero steering
    angle the angular velocity is 0 and the heading is unchanged, whatever
    the velocity.  The steering angle is one whose sine is not zero (any
    angle strictly between -180 and 180 degrees) and the wheelbase is not
    zero. *)
Theorem heading_follows_the_turning_radius (c : EGO_Car.t) (dt : R) :
  (EGO_Car.steering c <> 0 ->
   EGO_Car.length c <> 0 ->
   -180 < EGO_Car.steering c < 180 ->
   exists c',
     EGO_Car.update c dt = Some c'
     /\ Vector2.x (EGO_Car.velocity c')
        = clamp (Vector2.x (EGO_Car.velocity c) + EGO_Car.acceleration c * dt)
            (EGO_Car.max_velocity c)
     /\ EGO_Car.angle c'
        = EGO_Car.angle c
          + degrees (Vector2.x (EGO_Car.velocity c')
                     / (EGO_Car.length c / sin (radians (EGO_Car.steering c))))
            * dt
     /\ EGO_Car.angle c'
        = EGO_Car.angle c
          + degrees (Vector2.x (EGO_Car.velocity c')
                     * sin (radians (EGO_Car.steering c)) / EGO_Car.length c)
            * dt)
  /\ (EGO_Car.steering c = 0 ->
      exists c',
        EGO_Car.update c dt = Some c'
        /\ EGO_Car.angular_velocity c (EGO_Car.velocity c') = Some 0
        /\ EGO_Car.angle c' = EGO_Car.angle c).
Proof.
  split.
  - intros Hs HL Hrange.
    pose proof (sin_radians_nonzero _ Hs Hrange) as Hsin.
    assert (EGO_Car.length c / sin (radians (EGO_Car.steering c)) <> 0) as Hr.
    { unfold Rdiv. apply Rmult_integral_contrapositive_currified;
        [ exact HL | now apply Rinv_neq_0_compat ]. }
    unfold EGO_Car.update, EGO_Car.angular_velocity, py_div, bind.
    rewrite (proj2 (truthy_true _) Hs), (proj2 (truthy_true _) Hsin),
      (proj2 (truthy_true _) Hr).
    eexists. split; [ reflexivity | ]. fields.
    split; [ reflexivity | ]. split; [ reflexivity | ].
    do 3 f_equal. field. split; assumption.
  - intros Hs.
    unfold EGO_Car.update, EGO_Car.angular_velocity, bind.
    rewrite (proj2 (truthy_false _) Hs).
    eexists. split; [ reflexivity | ]. fields.
    split; [ reflexivity | ]. unfold degrees. field.
    apply Rgt_not_eq, PI_RGT_0.
Qed.

(** The scenario of the specification: steering pinned at +30 degrees for
    one second at speed 8.31 with wheelbase 4. *)
Lemma heading_follows_the_turning_radius_witness :
  exists c',
    EGO_Car.update steering_pinned 1 = Some c'
    /\ EGO_Car.angle c'
       = EGO_Car.angle steering_pinned
         + degrees (Vector2.x (EGO_Car.velocity c')
                    / (EGO_Car.length steering_pinned
                       / sin (radians (EGO_Car.steering steering_pinned))))
           * 1.
Proof.
  destruct (proj1 (heading_follows_the_turning_radius steering_pinned 1))
    as (c' & Hu & _ & Ha & _).
  - unfold steering_pinned, EGO_Car.set_steering. fields. lra.
  - unfold steering_pinned, EGO_Car.set_steering, EGO_Car.init. fields. lra.
  - unfold steering_pinned, EGO_Car.set_steering. fields. lra.
  - exists c'. split; assumption.
Defined.

(** ** Coasting to a stop *)

Lemma tick_longitudinal (dt : R) (p : keys) (w w' : world) :
  tick dt p w = Some w' ->
  let a := clamp (longitudinal dt p (ecar w)) (EGO_Car.max_acceleration (ecar w)) in
  EGO_Car.acceleration (ecar w') = a
  /\ Vector2.x (EGO_Car.velocity (ecar w'))
     = clamp (Vector2.x (EGO_Car.velocity (ecar w)) + a * dt)
         (EGO_Car.max_velocity (ecar w)).
Proof.
  intros H. apply tick_inv in H. destruct H as [H _].
  apply update_inv in H. destruct H as (Hv & Ha & _).
  cbv zeta. rewrite Ha, Hv. split; reflexivity.
Qed.

Lemma longitudinal_coasting (dt : R) (p : keys) (c : EGO_Car.t) :
  K_UP p = false -> K_DOWN p = false ->
  longitudinal dt p c
  = if Rabs (Vector2.x (EGO_Car.velocity c)) >? dt * EGO_Car.free_deceleration c
    then - copysign (EGO_Car.free_deceleration c) (Vector2.x (EGO_Car.velocity c))
    else if truthy dt then - Vector2.x (EGO_Car.velocity c) / dt
         else EGO_Car.acceleration c.
Proof. unfold longitudinal. now intros -> ->. Qed.

(** Far from rest: the free deceleration, against the direction of travel. *)
Lemma coast_far (dt : R) (p : keys) (w w' : world) :
  0 <= dt ->
  K_UP p = false -> K_DOWN p = false ->
  coastable (ecar w) ->
  Rabs (Vector2.x (EGO_Car.velocity (ecar w))) <= EGO_Car.max_velocity (ecar w) ->
  tick dt p w = Some w' ->
  Rabs (Vector2.x (EGO_Car.velocity (ecar w)))
    > dt * EGO_Car.free_deceleration (ecar w) ->
  let v := Vector2.x (EGO_Car.velocity (ecar w)) in
  let v' := Vector2.x (EGO_Car.velocity (ecar w')) in
  let fd := EGO_Car.free_deceleration (ecar w) in
  (0 < v -> EGO_Car.acceleration (ecar w') = - fd /\ v' = v - fd * dt /\ 0 < v')
  /\ (v < 0 -> EGO_Car.acceleration (ecar w') = fd /\ v' = v + fd * dt /\ v' < 0).
Proof.
  intros Hdt Hup Hdown ((Hfd0 & Hfd1) & Hmv) Hv Ht Hfar.
  apply tick_longitudinal in Ht. cbv zeta in Ht. destruct Ht as [Ha Hv'].
  rewrite (longitudinal_coasting _ _ _ Hup Hdown) in Ha, Hv'.
  unfold Rgtb in Ha, Hv'.
  rewrite (proj2 (Rltb_true _ _) Hfar) in Ha, Hv'.
  apply Rabs_le_between in Hv.
  set (v := Vector2.x (EGO_Car.velocity (ecar w))) in *.
  set (fd := EGO_Car.free_deceleration (ecar w)) in *.
  set (ma := EGO_Car.max_acceleration (ecar w)) in *.
  set (mv := EGO_Car.max_velocity (ecar w)) in *.
  assert (0 <= dt * fd) as Hprod by (apply Rmult_le_pos; assumption).
  cbv zeta. split; intros Hsign.
  - assert (- copysign fd v = - fd) as Hc.
    { unfold copysign. rewrite (proj2 (Rltb_false v 0)) by lra.
      rewrite Rabs_pos_eq by assumption. reflexivity. }
    rewrite Hc in Ha, Hv'.
    rewrite (clamp_inside (- fd) ma) in Ha, Hv' by lra.
    rewrite Rabs_pos_eq in Hfar by lra.
    rewrite clamp_inside in Hv' by lra.
    rewrite Ha, Hv'. repeat split; lra.
  - assert (- copysign fd v = fd) as Hc.
    { unfold copysign. rewrite (proj2 (Rltb_true v 0)) by lra.
      rewrite Rabs_pos_eq by assumption. ring. }
    rewrite Hc in Ha, Hv'.
    rewrite (clamp_inside fd ma) in Ha, Hv' by lra.
    rewrite Rabs_left in Hfar by lra.
    rewrite clamp_inside in Hv' by lra.
    rewrite Ha, Hv'. repeat split; lra.
Qed.

(** Near rest: the acceleration that cancels the speed within this tick. *)
Lemma coast_near (dt : R) (p : keys) (w w' : world) :
  0 < dt ->
  K_UP p = false -> K_DOWN p = false ->
  coastable (ecar w) ->
  tick dt p w = Some w' ->
  Rabs (Vector2.x (EGO_Car.velocity (ecar w)))
    <= dt * EGO_Car.free_deceleration (ecar w) ->
  EGO_Car.acceleration (ecar w') = - Vector2.x (EGO_Car.velocity (ecar w)) / dt
  /\ Vector2.x (EGO_Car.velocity (ecar w')) = 0.
Proof.
  intros Hdt Hup Hdown ((Hfd0 & Hfd1) & Hmv) Ht Hnear.
  apply tick_longitudinal in Ht. cbv zeta in Ht. destruct Ht as [Ha Hv'].
  rewrite (longitudinal_coasting _ _ _ Hup Hdown) in Ha, Hv'.
  unfold Rgtb in Ha, Hv'.
  rewrite (proj2 (Rltb_false _ _) Hnear) in Ha, Hv'.
  assert (dt <> 0) as Hnz by lra.
  rewrite (proj2 (truthy_true _) Hnz) in Ha, Hv'.
  apply Rabs_le_between in Hnear.
  set (v := Vector2.x (EGO_Car.velocity (ecar w))) in *.
  set (fd := EGO_Car.free_deceleration (ecar w)) in *.
  set (ma := EGO_Car.max_acceleration (ecar w)) in *.
  set (mv := EGO_Car.max_velocity (ecar w)) in *.
  assert (- v / dt * dt = - v) as Hcancel by (field; exact Hnz).
  assert (- fd <= - v / dt <= fd) as Hrange.
  { set (a := - v / dt) in *. split; nra. }
  rewrite (clamp_inside (- v / dt) ma) in Ha, Hv' by lra.
  rewrite Hcancel in Hv'.
  replace (v + - v) with 0 in Hv' by ring.
  rewrite clamp_inside in Hv' by lra.
  split; assumption.
Qed.

(** At rest the vehicle stays at rest, whatever the clock returns. *)
Lemma coast_at_rest (ms : nat) (p : keys) (w w' : world) :
  K_UP p = false -> K_DOWN p = false ->
  coastable (ecar w) ->
  Vector2.x (EGO_Car.velocity (ecar w)) = 0 ->
  tick (dt_of ms) p w = Some w' ->
  Vector2.x (EGO_Car.velocity (ecar w')) = 0.
Proof.
  intros Hup Hdown Hc H0 Ht.
  pose proof (dt_of_nonneg ms) as Hdt.
  destruct (Req_dec_T (dt_of ms) 0) as [ Hz | Hnz ].
  - apply tick_longitudinal in Ht. cbv zeta in Ht. destruct Ht as [_ Hv'].
    destruct Hc as (_ & Hmv).
    rewrite Hv', H0, Hz.
    replace (0 + clamp (longitudinal 0 p (ecar w))
                   (EGO_Car.max_acceleration (ecar w)) * 0) with 0 by ring.
    apply clamp_inside. lra.
  - apply (coast_near (dt_of ms) p w w'); try assumption.
    + lra.
    + destruct Hc as ((Hfd0 & _) & _).
      rewrite H0, Rabs_R0. apply Rmult_le_pos; assumption.
Qed.

Lemma coastable_constants (c c' : EGO_Car.t) :
  same_constants c c' -> coastable c -> coastable c'.
Proof.
  unfold same_constants, coastable.
  intros (_ & -> & _ & -> & _ & ->). tauto.
Qed.

Lemma rest_is_kept (exit : bool) (fs : list frame) (w : world) :
  coasting fs ->
  coastable (ecar w) ->
  Vector2.x (EGO_Car.velocity (ecar w)) = 0 ->
  Forall (fun w' => Vector2.x (EGO_Car.velocity (ecar w')) = 0)
    (trace exit fs w).
Proof.
  revert exit w.
  induction fs as [ | f rest IH ]; intros exit w Hfs Hc H0.
  - destruct exit; constructor.
  - cbn [trace]. destruct exit; [ constructor | ].
    destruct (tick (dt_of (get_time f)) (pressed f) w) as [ w' | ] eqn:Ht;
      [ | constructor ].
    apply Forall_cons_iff in Hfs. destruct Hfs as [[Hup Hdown] Hrest].
    assert (Vector2.x (EGO_Car.velocity (ecar w')) = 0) as H0'.
    { eapply coast_at_rest; eassumption. }
    constructor; [ exact H0' | ].
    destruct (end_condition w'); [ constructor | ].
    apply IH; try assumption.
    eapply coastable_constants; [ | exact Hc ].
    eapply tick_constants; eassumption.
Qed.


(** What lines 171-177 are written to achieve, and do achieve when the
    floats are read as reals: for every dt > 0 and with neither the up nor
    the down key held: while |velocity.x| > dt * free_deceleration the
    acceleration is set to the free deceleration against the direction of
    travel, and the speed moves towards 0 by dt * free_deceleration without
    reaching or crossing it; once |velocity.x| <= dt * free_deceleration the
    acceleration is set to -velocity.x / dt and velocity.x is exactly 0 after
    that tick, and it stays 0 on every later tick without those keys,
    whatever the clock returns.  The vehicle is one on which [update] is
    defined, whose free deceleration fits within its acceleration limit and
    whose speed is within its limit. *)
Theorem coasting_stops_in_exact_arithmetic (dt : R) (p : keys) (w : world) :
  0 < dt ->
  K_UP p = false -> K_DOWN p = false ->
  drivable (ecar w) ->
  coastable (ecar w) ->
  Rabs (Vector2.x (EGO_Car.velocity (ecar w))) <= EGO_Car.max_velocity (ecar w) ->
  exists w',
    tick dt p w = Some w'
    /\ (Rabs (Vector2.x (EGO_Car.velocity (ecar w)))
          > dt * EGO_Car.free_deceleration (ecar w) ->
        (0 < Vector2.x (EGO_Car.velocity (ecar w)) ->
         EGO_Car.acceleration (ecar w') = - EGO_Car.free_deceleration (ecar w)
         /\ Vector2.x (EGO_Car.velocity (ecar w'))
            = Vector2.x (EGO_Car.velocity (ecar w))
              - EGO_Car.free_deceleration (ecar w) * dt
         /\ 0 < Vector2.x (EGO_Car.velocity (ecar w')))
        /\ (Vector2.x (EGO_Car.velocity (ecar w)) < 0 ->
            EGO_Car.acceleration (ecar w') = EGO_Car.free_deceleration (ecar w)
            /\ Vector2.x (EGO_Car.velocity (ecar w'))
               = Vector2.x (EGO_Car.velocity (ecar w))
                 + EGO_Car.free_deceleration (ecar w) * dt
            /\ Vector2.x (EGO_Car.velocity (ecar w')) < 0))
    /\ (Rabs (Vector2.x (EGO_Car.velocity (ecar w)))
          <= dt * EGO_Car.free_deceleration (ecar w) ->
        EGO_Car.acceleration (ecar w')
        = - Vector2.x (EGO_Car.velocity (ecar w)) / dt
        /\ Vector2.x (EGO_Car.velocity (ecar w')) = 0
        /\ forall (exit : bool) (fs : list frame),
             coasting fs ->
             Forall (fun w2 => Vector2.x (EGO_Car.velocity (ecar w2)) = 0)
               (trace exit fs w')).
Proof.
  intros Hdt Hup Hdown Hd Hc Hv.
  destruct (tick_total dt p w Hd) as [w' Ht].
  exists w'. split; [ exact Ht | ]. split.
  - intros Hfar.
    apply (coast_far dt p w w'); try assumption. lra.
  - intros Hnear.
    destruct (coast_near dt p w w' Hdt Hup Hdown Hc Ht Hnear) as [Ha H0].
    split; [ exact Ha | ]. split; [ exact H0 | ].
    intros exit fs Hfs. apply rest_is_kept; try assumption.
    eapply coastable_constants; [ | exact Hc ].
    eapply tick_constants; eassumption.
Qed.

Lemma initial_coastable (off : R) : coastable (ecar (initial_world off)).
Proof. unfold coastable, initial_world, EGO_Car.init. fields. lra. Qed.

(** The theorem at the program's start with one frame of ten seconds, long
    enough for the initial 8.31 to be within dt * free_deceleration. *)
Lemma coasting_stops_in_exact_arithmetic_witness :
  (0 < 10
   /\ K_UP no_keys = false /\ K_DOWN no_keys = false
   /\ drivable (ecar (initial_world 7))
   /\ coastable (ecar (initial_world 7))
   /\ Rabs (Vector2.x (EGO_Car.velocity (ecar (initial_world 7))))
      <= EGO_Car.max_velocity (ecar (initial_world 7)))
  /\ exists w',
       tick 10 no_keys (initial_world 7) = Some w'
       /\ EGO_Car.acceleration (ecar w') = - (831 / 100) / 10
       /\ Vector2.x (EGO_Car.velocity (ecar w')) = 0.
Proof.
  assert (0 < 10) as Hdt by lra.
  split.
  - split; [ exact Hdt | ].
    split; [ reflexivity | ]. split; [ reflexivity | ].
    split; [ apply initial_drivable | ].
    split; [ apply initial_coastable | apply initial_speed_within_limit ].
  - destruct (coasting_stops_in_exact_arithmetic 10 no_keys (initial_world 7)
                Hdt eq_refl eq_refl (initial_drivable 7) (initial_coastable 7)
                (initial_speed_within_limit 7))
      as (w' & Ht & _ & Hnear).
    exists w'. split; [ exact Ht | ].
    destruct Hnear as (Ha & H0 & _).
    + unfold initial_world, EGO_Car.init. fields.
      rewrite Rabs_pos_eq; lra.
    + split; [ exact Ha | exact H0 ].
Defined.

(** * Further properties of the code *)

(** ** Exceptions *)

(** X1. With a zero steering angle [EGO_Car.update] never raises, whatever
    the wheelbase, zero included; with a zero wheelbase it raises
    [ZeroDivisionError] as soon as the steering angle is not zero. *)
Theorem zero_wheelbase_raises_when_steering (c : EGO_Car.t) (dt : R) :
  (EGO_Car.steering c = 0 -> exists c', EGO_Car.update c dt = Some c')
  /\ (EGO_Car.steering c <> 0 -> EGO_Car.length c = 0 ->
      EGO_Car.update c dt = None).
Proof.
  unfold EGO_Car.update, EGO_Car.angular_velocity, py_div, bind. split.
  - intros Hs. rewrite (proj2 (truthy_false _) Hs). eauto.
  - intros Hs HL. rewrite (proj2 (truthy_true _) Hs).
    destruct (truthy (sin (radians (EGO_Car.steering c)))); [ | reflexivity ].
    rewrite HL. replace (0 / sin (radians (EGO_Car.steering c))) with 0
      by (unfold Rdiv; ring).
    now rewrite (proj2 (truthy_false 0) eq_refl).
Qed.

Lemma zero_wheelbase_raises_when_steering_witness :
  (exists c', EGO_Car.update (EGO_Car.init 7 64 90 0 30 5) 1 = Some c')
  /\ EGO_Car.update (EGO_Car.set_steering (EGO_Car.init 7 64 90 0 30 5) 30) 1
     = None.
Proof.
  split.
  - apply (proj1 (zero_wheelbase_raises_when_steering
                    (EGO_Car.init 7 64 90 0 30 5) 1)).
    reflexivity.
  - apply (proj2 (zero_wheelbase_raises_when_steering
                    (EGO_Car.set_steering (EGO_Car.init 7 64 90 0 30 5) 30) 1)).
    + unfold EGO_Car.set_steering. fields. lra.
    + reflexivity.
Defined.

Lemma poll_bound (q : list event) (k : keyboard) (e : bool) :
  exists k', fst (poll q (Some k, e)) = Some k'.
Proof.
  unfold poll. revert k e.
  induction q as [ | ev q IH ]; intros k e; cbn [fold_left fst snd].
  - eauto.
  - apply IH.
Qed.

Lemma poll_unbound (q : list event) (e : bool) :
  fst (poll q (None, e)) = None <-> q = [].
Proof.
  destruct q as [ | ev q ]; unfold poll; cbn [fold_left fst snd].
  - tauto.
  - split; [ | discriminate ].
    destruct (poll_bound q (get_pressed ev)
                (e || is_QUIT ev || K_ESCAPE (get_pressed ev))) as [k' Hk'].
    unfold poll in Hk'. rewrite Hk'. discriminate.
Qed.

(** Once an event has bound [pressed], it stays bound. *)
Lemma run_polled_bound (exit : bool) (k : keyboard)
  (its : list iteration) (w : world) :
  run_polled exit (Some k) its w <> UnboundLocalError.
Proof.
  revert exit k w.
  induction its as [ | it rest IH ]; intros exit k w; cbn [run_polled].
  - destruct exit; discriminate.
  - destruct exit; [ discriminate | ].
    destruct (poll_bound (queue it) k false) as [k' Hk']. rewrite Hk'.
    destruct (tick (dt_of (clock it)) (arrows k') w) as [ w' | ];
      [ | discriminate ].
    destruct (end_condition w'); [ discriminate | apply IH ].
Qed.

Lemma run_polled_never_divides_by_zero (exit : bool) (pr : option keyboard)
  (its : list iteration) (w : world) :
  drivable (ecar w) -> run_polled exit pr its w <> Ran ZeroDivisionError.
Proof.
  revert exit pr w.
  induction its as [ | it rest IH ]; intros exit pr w Hw; cbn [run_polled].
  - destruct exit; discriminate.
  - destruct exit; [ discriminate | ].
    destruct (fst (poll (queue it) (pr, false))) as [ k | ];
      [ | discriminate ].
    destruct (tick_total (dt_of (clock it)) (arrows k) w Hw) as [w' Hw'].
    rewrite Hw'. destruct (end_condition w'); [ discriminate | ].
    apply IH. eapply drivable_constants; [ | exact Hw ].
    eapply tick_constants; eassumption.
Qed.

(** With the keys bound throughout, the loop is [run] on the frames it
    reads. *)
Lemma run_polled_is_run (exit : bool) (pr : option keyboard)
  (its : list iteration) (fs : list frame) (w : world) :
  frames_of pr its = Some fs ->
  run_polled exit pr its w = Ran (run exit fs w).
Proof.
  revert exit pr fs w.
  induction its as [ | it rest IH ]; intros exit pr fs w;
    cbn [frames_of run_polled].
  - intros [= <-]. destruct exit; reflexivity.
  - unfold bind.
    destruct (fst (poll (queue it) (pr, false))) as [ k | ] eqn:Hk;
      [ | discriminate ].
    destruct (frames_of (Some k) rest) as [ fs' | ] eqn:Hfs;
      [ | discriminate ].
    intros [= <-]. destruct exit; [ reflexivity | ].
    cbn [run get_time pressed quit]. rewrite Hk.
    destruct (tick (dt_of (clock it)) (arrows k) w) as [ w' | ];
      [ | reflexivity ].
    destruct (end_condition w'); [ reflexivity | ].
    now apply IH.
Qed.

(** X2. Started from the program's initial world, whose wheelbase is 4 and
    whose steering limit is 30 degrees, the loop never raises
    [ZeroDivisionError], whatever the clock readings, the event queues and
    the keys: the clamp of line 185 keeps the steering angle where its sine
    vanishes at 0 only. *)
Theorem loop_never_divides_by_zero
  (off : R) (exit : bool) (pr : option keyboard) (its : list iteration)
  (fs : list frame) :
  run_polled exit pr its (initial_world off) <> Ran ZeroDivisionError
  /\ run exit fs (initial_world off) <> ZeroDivisionError.
Proof.
  split.
  - apply run_polled_never_divides_by_zero, initial_drivable.
  - apply run_never_raises, initial_drivable.
Qed.

(** X12. The loop raises [UnboundLocalError] exactly when the event queue
    of its first iteration is empty: line 161 then reads [pressed], which
    only the handling of an event binds.  In that case no vehicle has been
    updated.  Once one iteration has handled an event the loop never raises
    it, however many empty queues follow. *)
Theorem unbound_pressed_exactly_on_an_empty_first_queue
  (its : list iteration) (w : world) :
  (run_polled false None its w = UnboundLocalError
   <-> exists it rest, its = it :: rest /\ queue it = [])
  /\ (forall (exit : bool) (k : keyboard),
        run_polled exit (Some k) its w <> UnboundLocalError).
Proof.
  split; [ | intros exit k; apply run_polled_bound ].
  destruct its as [ | it rest ]; cbn [run_polled].
  - split; [ discriminate | ]. intros (it & rest & H & _). discriminate.
  - destruct (fst (poll (queue it) (None, false))) as [ k | ] eqn:Hk.
    + assert (queue it <> []) as Hq.
      { intros Hq. apply (poll_unbound (queue it) false) in Hq.
        rewrite Hq in Hk. discriminate. }
      split.
      * destruct (tick (dt_of (clock it)) (arrows k) w) as [ w' | ];
          [ | discriminate ].
        destruct (end_condition w'); [ discriminate | ].
        intros H. exfalso. revert H. apply run_polled_bound.
      * intros (it' & rest' & [= <- <-] & H). contradiction.
    + apply poll_unbound in Hk. split; [ | reflexivity ].
      intros _. exists it, rest. auto.
Qed.

(** ** Driving straight *)

Lemma degrees_0 : degrees 0 = 0.
Proof. unfold degrees, Rdiv. ring. Qed.

Lemma rotate_quarter_turn (v : Vector2.t) :
  Vector2.rotate v (- 90) = Vector2.mk (Vector2.y v) (- Vector2.x v).
Proof.
  unfold Vector2.rotate, radians.
  replace (- 90 * PI / 180) with (- (PI / 2)) by field.
  rewrite cos_neg, sin_neg, cos_PI2, sin_PI2. f_equal; ring.
Qed.

(** A tick with neither steering key: the steering angle is reset, the
    heading is kept, and a vehicle heading down the corridor keeps its x. *)
Lemma tick_hands_off (dt : R) (p : keys) (w w' : world) :
  K_RIGHT p = false -> K_LEFT p = false ->
  0 <= EGO_Car.max_steering (ecar w) ->
  tick dt p w = Some w' ->
  EGO_Car.steering (ecar w') = 0
  /\ EGO_Car.angle (ecar w') = EGO_Car.angle (ecar w)
  /\ Vector2.y (EGO_Car.velocity (ecar w')) = Vector2.y (EGO_Car.velocity (ecar w))
  /\ (heading_down (ecar w) ->
      Vector2.x (EGO_Car.position (ecar w'))
      = Vector2.x (EGO_Car.position (ecar w))
      /\ Vector2.y (EGO_Car.position (ecar w'))
         = Vector2.y (EGO_Car.position (ecar w))
           - Vector2.x (EGO_Car.velocity (ecar w')) * dt).
Proof.
  intros Hr Hl Hms Ht. apply tick_inv in Ht. destruct Ht as [Hu _].
  assert (EGO_Car.steering (control dt p (ecar w)) = 0) as Hs.
  { rewrite control_steering. unfold lateral. rewrite Hr, Hl.
    apply clamp_inside. lra. }
  revert Hu. unfold EGO_Car.update, EGO_Car.angular_velocity, bind.
  rewrite (proj2 (truthy_false _) Hs).
  intros [= <-]. fields.
  split; [ exact Hs | ].
  split; [ rewrite degrees_0; ring | ].
  unfold EGO_Car.integrate_velocity, Vector2.add. fields.
  rewrite !control_velocity.
  split; [ ring | ].
  intros [Ha Hvy].
  rewrite Ha, rotate_quarter_turn.
  unfold Vector2.scale. fields.
  rewrite Hvy. split; ring.
Qed.

(** X3. Along any run in which neither steering key is ever held, a vehicle
    that heads down the corridor (heading 90 degrees, as at the start) has,
    after every tick, steering angle 0, heading 90 and the x-coordinate it
    started with: it stays in its lane whatever the up and down keys do. *)
Theorem hands_off_keeps_the_lane (exit : bool) (fs : list frame) (w : world) :
  hands_off fs ->
  0 <= EGO_Car.max_steering (ecar w) ->
  heading_down (ecar w) ->
  Forall (fun w' =>
            EGO_Car.steering (ecar w') = 0
            /\ EGO_Car.angle (ecar w') = 90
            /\ Vector2.x (EGO_Car.position (ecar w'))
               = Vector2.x (EGO_Car.position (ecar w)))
    (trace exit fs w).
Proof.
  revert exit w.
  induction fs as [ | f rest IH ]; intros exit w Hfs Hms Hd.
  - destruct exit; constructor.
  - cbn [trace]. destruct exit; [ constructor | ].
    destruct (tick (dt_of (get_time f)) (pressed f) w) as [ w' | ] eqn:Ht;
      [ | constructor ].
    apply Forall_cons_iff in Hfs. destruct Hfs as [[Hr Hl] Hrest].
    destruct (tick_hands_off _ _ _ _ Hr Hl Hms Ht) as (Hs & Ha & Hvy & Hpos).
    destruct (Hpos Hd) as [Hx _].
    destruct Hd as [Hd1 Hd2].
    constructor.
    + split; [ exact Hs | ]. split; [ now rewrite Ha | exact Hx ].
    + destruct (end_condition w'); [ constructor | ].
      rewrite <- Hx. apply IH.
      * exact Hrest.
      * pose proof (tick_constants _ _ _ _ Ht) as (_ & _ & -> & _). exact Hms.
      * split; [ now rewrite Ha | now rewrite Hvy ].
Qed.

Lemma initial_heading_down (off : R) : heading_down (ecar (initial_world off)).
Proof. unfold heading_down, initial_world, EGO_Car.init. fields. auto. Qed.

Lemma hands_off_keeps_the_lane_witness :
  let fs := [mk_frame 0 no_keys false; mk_frame 16 (mk_keys true false false false) false] in
  (hands_off fs
   /\ 0 <= EGO_Car.max_steering (ecar (initial_world 7))
   /\ heading_down (ecar (initial_world 7)))
  /\ Forall (fun w' =>
               EGO_Car.steering (ecar w') = 0
               /\ EGO_Car.angle (ecar w') = 90
               /\ Vector2.x (EGO_Car.position (ecar w'))
                  = Vector2.x (EGO_Car.position (ecar (initial_world 7))))
       (trace false fs (initial_world 7)).
Proof.
  assert (hands_off [mk_frame 0 no_keys false;
                     mk_frame 16 (mk_keys true false false false) false])
    as Hfs.
  { repeat (apply Forall_cons; [ split; reflexivity | ]). apply Forall_nil. }
  assert (0 <= EGO_Car.max_steering (ecar (initial_world 7))) as Hms.
  { apply (initial_nonneg_limits 7). }
  split.
  - split; [ exact Hfs | ]. split; [ exact Hms | apply initial_heading_down ].
  - apply (hands_off_keeps_the_lane false _ (initial_world 7) Hfs Hms
             (initial_heading_down 7)).
Defined.

(** ** Turning and moving *)

Lemma sin_radians_sign (s : R) :
  (0 < s < 180 -> 0 < sin (radians s))
  /\ (-180 < s < 0 -> sin (radians s) < 0).
Proof.
  assert (HPI := PI_RGT_0). unfold radians.
  replace (s * PI / 180) with (s / 180 * PI) by field.
  split; intros [Hlo Hhi].
  - assert (0 < s / 180 < 1) as [H0 H1] by lra.
    apply sin_gt_0; nra.
  - assert (0 < - (s / 180) < 1) as [H0 H1] by lra.
    assert (0 < sin (- (s / 180 * PI))) as H.
    { apply sin_gt_0; nra. }
    rewrite sin_neg in H. lra.
Qed.

Lemma update_position (c c' : EGO_Car.t) (dt : R) :
  EGO_Car.update c dt = Some c' ->
  EGO_Car.position c'
  = Vector2.add (EGO_Car.position c)
      (Vector2.scale (Vector2.rotate (EGO_Car.velocity c') (- EGO_Car.angle c))
         dt).
Proof.
  unfold EGO_Car.update, bind.
  destruct (EGO_Car.angular_velocity c _); [ | discriminate ].
  intros [= <-]. reflexivity.
Qed.

Lemma update_heading (c : EGO_Car.t) (dt : R) :
  EGO_Car.steering c <> 0 ->
  EGO_Car.length c <> 0 ->
  sin (radians (EGO_Car.steering c)) <> 0 ->
  exists c',
    EGO_Car.update c dt = Some c'
    /\ EGO_Car.angle c' - EGO_Car.angle c
       = 180 / PI * dt / EGO_Car.length c
         * (Vector2.x (EGO_Car.velocity c') * sin (radians (EGO_Car.steering c))).
Proof.
  intros Hs HL Hsin.
  assert (EGO_Car.length c / sin (radians (EGO_Car.steering c)) <> 0) as Hr.
  { unfold Rdiv. apply Rmult_integral_contrapositive_currified;
      [ exact HL | now apply Rinv_neq_0_compat ]. }
  unfold EGO_Car.update, EGO_Car.angular_velocity, py_div, bind.
  rewrite (proj2 (truthy_true _) Hs), (proj2 (truthy_true _) Hsin),
    (proj2 (truthy_true _) Hr).
  eexists. split; [ reflexivity | ]. fields. unfold degrees. field.
  repeat split; try assumption. apply Rgt_not_eq, PI_RGT_0.
Qed.

(** X4. With a positive wheelbase and time step, a steering angle to the
    left (positive, below 180 degrees) never decreases the heading while the
    vehicle moves forward and never increases it while it reverses, a
    steering angle to the right does the opposite, and a vehicle at rest
    does not turn.  In exact arithmetic the heading changes by at most
    degrees(|velocity.x| / length) * dt. *)
Theorem steering_turns_the_heading (c : EGO_Car.t) (dt : R) :
  0 < EGO_Car.length c ->
  0 < dt ->
  EGO_Car.steering c <> 0 ->
  -180 < EGO_Car.steering c < 180 ->
  exists c',
    EGO_Car.update c dt = Some c'
    /\ (0 <= EGO_Car.steering c * Vector2.x (EGO_Car.velocity c') ->
        EGO_Car.angle c <= EGO_Car.angle c')
    /\ (EGO_Car.steering c * Vector2.x (EGO_Car.velocity c') <= 0 ->
        EGO_Car.angle c' <= EGO_Car.angle c)
    /\ (Vector2.x (EGO_Car.velocity c') = 0 ->
        EGO_Car.angle c' = EGO_Car.angle c)
    /\ Rabs (EGO_Car.angle c' - EGO_Car.angle c)
       <= degrees (Rabs (Vector2.x (EGO_Car.velocity c')) / EGO_Car.length c)
          * dt.
Proof.
  intros HL Hdt Hs Hrange.
  assert (HPI := PI_RGT_0).
  destruct (update_heading c dt Hs) as (c' & Hu & Hd).
  { lra. }
  { now apply sin_radians_nonzero. }
  exists c'. split; [ exact Hu | ].
  destruct (sin_radians_sign (EGO_Car.steering c)) as [Hpos Hneg].
  pose proof (SIN_bound (radians (EGO_Car.steering c))) as [Hs1 Hs2].
  set (st := EGO_Car.steering c) in *.
  set (s := sin (radians st)) in *.
  set (v := Vector2.x (EGO_Car.velocity c')) in *.
  set (k := 180 / PI * dt / EGO_Car.length c) in *.
  assert (0 < k) as Hk.
  { unfold k. apply Rdiv_lt_0_compat; [ | exact HL ].
    apply Rmult_lt_0_compat; [ | exact Hdt ].
    apply Rdiv_lt_0_compat; lra. }
  assert (forall z, 0 <= z -> 0 <= k * z) as Kpos.
  { intros z Hz. apply Rmult_le_pos; lra. }
  repeat split.
  - intros Hsv.
    assert (0 <= v * s) as Hvs.
    { destruct (Rlt_dec 0 st) as [ Hst | Hst ].
      - assert (0 < s) as Hs' by (apply Hpos; lra).
        assert (0 <= v) by nra. nra.
      - assert (st < 0) as Hst' by lra.
        assert (s < 0) as Hs' by (apply Hneg; lra).
        assert (v <= 0) by nra. nra. }
    specialize (Kpos _ Hvs). lra.
  - intros Hsv.
    assert (0 <= - (v * s)) as Hvs.
    { destruct (Rlt_dec 0 st) as [ Hst | Hst ].
      - assert (0 < s) as Hs' by (apply Hpos; lra).
        assert (v <= 0) by nra. nra.
      - assert (st < 0) as Hst' by lra.
        assert (s < 0) as Hs' by (apply Hneg; lra).
        assert (0 <= v) by nra. nra. }
    specialize (Kpos _ Hvs). lra.
  - intros Hv0. rewrite Hv0 in Hd.
    replace (k * (0 * s)) with 0 in Hd by ring. lra.
  - rewrite Hd.
    replace (degrees (Rabs v / EGO_Car.length c) * dt) with (k * Rabs v).
    2:{ unfold degrees, k. field. split; lra. }
    rewrite Rabs_mult, (Rabs_pos_eq k) by lra.
    apply Rmult_le_compat_l; [ lra | ].
    rewrite Rabs_mult.
    rewrite <- (Rmult_1_r (Rabs v)) at 2.
    apply Rmult_le_compat_l; [ apply Rabs_pos | ].
    apply Rabs_le. lra.
Qed.

(** The vehicle of the specification's turning scenario: steering pinned at
    +30 degrees, speed 8.31, wheelbase 4, one second. *)
Lemma steering_turns_the_heading_witness :
  (0 < EGO_Car.length steering_pinned
   /\ 0 < 1
   /\ EGO_Car.steering steering_pinned <> 0
   /\ -180 < EGO_Car.steering steering_pinned < 180)
  /\ exists c',
       EGO_Car.update steering_pinned 1 = Some c'
       /\ Rabs (EGO_Car.angle c' - EGO_Car.angle steering_pinned)
          <= degrees (Rabs (Vector2.x (EGO_Car.velocity c'))
                      / EGO_Car.length steering_pinned) * 1.
Proof.
  assert (0 < EGO_Car.length steering_pinned) as HL.
  { unfold steering_pinned, EGO_Car.set_steering, EGO_Car.init. fields. lra. }
  assert (EGO_Car.steering steering_pinned <> 0) as Hs.
  { unfold steering_pinned, EGO_Car.set_steering. fields. lra. }
  assert (-180 < EGO_Car.steering steering_pinned < 180) as Hr.
  { unfold steering_pinned, EGO_Car.set_steering. fields. lra. }
  split.
  - split; [ exact HL | ]. split; [ lra | ]. split; assumption.
  - destruct (steering_turns_the_heading steering_pinned 1 HL Rlt_0_1 Hs Hr)
      as (c' & Hu & _ & _ & _ & Hb).
    exists c'. split; assumption.
Defined.

(** X5. Whatever the heading, an update moves the ego vehicle by a vector
    whose squared length is the squared length of the velocity times dt
    squared: the distance covered in a tick is the speed times the time
    step. *)
Theorem update_moves_by_speed_times_dt (c c' : EGO_Car.t) (dt : R) :
  EGO_Car.update c dt = Some c' ->
  let dx := Vector2.x (EGO_Car.position c') - Vector2.x (EGO_Car.position c) in
  let dy := Vector2.y (EGO_Car.position c') - Vector2.y (EGO_Car.position c) in
  dx * dx + dy * dy
  = (Vector2.x (EGO_Car.velocity c') * Vector2.x (EGO_Car.velocity c')
     + Vector2.y (EGO_Car.velocity c') * Vector2.y (EGO_Car.velocity c'))
    * (dt * dt).
Proof.
  intros Hu. rewrite (update_position _ _ _ Hu).
  unfold Vector2.add, Vector2.scale, Vector2.rotate. fields.
  set (th := radians (- EGO_Car.angle c)).
  pose proof (sin2_cos2 th) as H. unfold Rsqr in H.
  set (sn := sin th) in *. set (cs := cos th) in *.
  set (vx := Vector2.x (EGO_Car.velocity c')).
  set (vy := Vector2.y (EGO_Car.velocity c')).
  cbv zeta.
  transitivity ((vx * vx + vy * vy) * (dt * dt) * (sn * sn + cs * cs)).
  - ring.
  - rewrite H. ring.
Qed.

Lemma update_moves_by_speed_times_dt_witness :
  exists c',
    EGO_Car.update steering_pinned 1 = Some c'
    /\ (Vector2.x (EGO_Car.position c') - Vector2.x (EGO_Car.position steering_pinned))
       * (Vector2.x (EGO_Car.position c') - Vector2.x (EGO_Car.position steering_pinned))
       + (Vector2.y (EGO_Car.position c') - Vector2.y (EGO_Car.position steering_pinned))
         * (Vector2.y (EGO_Car.position c') - Vector2.y (EGO_Car.position steering_pinned))
       = (Vector2.x (EGO_Car.velocity c') * Vector2.x (EGO_Car.velocity c')
          + Vector2.y (EGO_Car.velocity c') * Vector2.y (EGO_Car.velocity c'))
         * (1 * 1).
Proof.
  destruct (update_total steering_pinned 1) as [c' Hu].
  - unfold steering_pinned, EGO_Car.set_steering, EGO_Car.init. fields. lra.
  - intros Hs. apply sin_radians_nonzero; [ exact Hs | ].
    unfold steering_pinned, EGO_Car.set_steering. fields. lra.
  - exists c'. split; [ exact Hu | ].
    apply (update_moves_by_speed_times_dt steering_pinned c' 1 Hu).
Defined.

(** ** Runs that have not ended *)

Lemma elapsed_nonneg (fs : list frame) : 0 <= elapsed fs.
Proof.
  induction fs as [ | f rest IH ]; cbn [elapsed fold_right].
  - lra.
  - pose proof (dt_of_nonneg (get_time f)). fold (elapsed rest). lra.
Qed.

(** A run that is still pending has made every update of its frames, and
    its last test of the end condition, if there was one, did not break. *)
Lemma run_pending_ticks (exit : bool) (fs : list frame) (w w' : world) :
  run exit fs w = Pending w' ->
  ticks fs w = Some w'
  /\ (end_condition w = None -> end_condition w' = None).
Proof.
  revert exit w.
  induction fs as [ | f rest IH ]; intros exit w.
  - cbn. destruct exit; [ discriminate | ]. intros [= <-]. auto.
  - cbn [run ticks]. destruct exit; [ discriminate | ].
    unfold bind.
    destruct (tick (dt_of (get_time f)) (pressed f) w) as [ w1 | ];
      [ | discriminate ].
    destruct (end_condition w1) eqn:He; [ discriminate | ].
    intros H. destruct (IH _ _ H) as [Ht Hn]. split; [ exact Ht | auto ].
Qed.

(** The start of the program is not an end of the round: every other
    vehicle is at least six units ahead of or behind the ego vehicle. *)
Lemma initial_end_condition (off : R) :
  0 <= off <= 145 / 10 -> end_condition (initial_world off) = None.
Proof.
  intros [H0 H1].
  unfold end_condition, initial_world, close_to, EGO_Car.init, O_Car.init.
  fields. now compare_numbers.
Qed.

Lemma first_frame_pending (off : R) (p : keys) :
  0 <= off <= 145 / 10 ->
  exists w', run false [mk_frame 0 p false] (initial_world off) = Pending w'.
Proof.
  intros Hoff.
  destruct (tick_zero p (initial_world off) (initial_drivable off))
    as (w' & Ht & _ & _ & _ & _ & He).
  exists w'. cbn [run get_time pressed quit].
  rewrite dt_of_0, Ht, He, (initial_end_condition off Hoff). reflexivity.
Qed.

(** X6. At the start of the program, for any offset of the ego vehicle
    within the corridor, the end condition does not hold, and the first
    iteration of the loop, whose clock reading is zero, never ends the
    round: with an empty event queue it raises [UnboundLocalError], and
    otherwise, whatever keys are held, the loop goes on, or exits if a QUIT
    event or the escape key was seen. *)
Theorem the_start_is_not_an_end (off : R) (it : iteration) :
  0 <= off <= 145 / 10 ->
  clock it = 0%nat ->
  end_condition (initial_world off) = None
  /\ (queue it = [] ->
      run_polled false None [it] (initial_world off) = UnboundLocalError)
  /\ (queue it <> [] ->
      exists w',
        run_polled false None [it] (initial_world off)
        = Ran (if snd (poll (queue it) (None, false))
               then Exited w' else Pending w')).
Proof.
  intros Hoff Hclock.
  split; [ now apply initial_end_condition | ].
  cbn [run_polled]. rewrite Hclock. split.
  - intros Hq. apply (poll_unbound (queue it) false) in Hq.
    now rewrite Hq.
  - intros Hq.
    destruct (fst (poll (queue it) (None, false))) as [ k | ] eqn:Hk.
    + destruct (tick_zero (arrows k) (initial_world off)
                  (initial_drivable off))
        as (w' & Ht & _ & _ & _ & _ & He).
      exists w'.
      rewrite dt_of_0, Ht, He, (initial_end_condition off Hoff).
      now destruct (snd (poll (queue it) (None, false))).
    + apply poll_unbound in Hk. contradiction.
Qed.

Lemma the_start_is_not_an_end_witness :
  let it := mk_iteration 0 [mk_event false (mk_keyboard no_keys false)] in
  (0 <= 7 <= 145 / 10 /\ clock it = 0%nat)
  /\ end_condition (initial_world 7) = None
  /\ exists w', run_polled false None [it] (initial_world 7) = Ran (Pending w').
Proof.
  cbv zeta.
  assert (0 <= 7 <= 145 / 10) as H by lra.
  split; [ split; [ exact H | reflexivity ] | ].
  destruct (the_start_is_not_an_end 7
              (mk_iteration 0 [mk_event false (mk_keyboard no_keys false)])
              H eq_refl) as (He & _ & Hrun).
  split; [ exact He | ].
  destruct Hrun as [w' Hw']; [ discriminate | ].
  exists w'. exact Hw'.
Defined.

(** ** The first frame that takes time *)

(** A tick of a vehicle that heads down the corridor, whatever the keys:
    the position is updated with the heading before the tick, so x is kept
    and y goes down by the new speed times dt. *)
Lemma tick_heading_down (dt : R) (p : keys) (w : world) :
  drivable (ecar w) ->
  nonneg_limits (ecar w) ->
  heading_down (ecar w) ->
  exists w',
    tick dt p w = Some w'
    /\ Vector2.x (EGO_Car.position (ecar w'))
       = Vector2.x (EGO_Car.position (ecar w))
    /\ Vector2.y (EGO_Car.position (ecar w'))
       = Vector2.y (EGO_Car.position (ecar w))
         - Vector2.x (EGO_Car.velocity (ecar w')) * dt
    /\ Rabs (Vector2.x (EGO_Car.velocity (ecar w')))
       <= EGO_Car.max_velocity (ecar w)
    /\ others w' = map (fun o => O_Car.update o (- dt)) (others w).
Proof.
  intros Hd Hn [Ha Hvy].
  destruct (tick_total dt p w Hd) as [w' Ht].
  exists w'. split; [ exact Ht | ].
  pose proof (tick_within_limits _ _ _ _ Hn Ht) as (Hlim & _).
  pose proof (tick_constants _ _ _ _ Ht) as (_ & _ & _ & Hmv & _).
  destruct (others_advance _ _ _ _ Ht) as [Ho _].
  apply tick_inv in Ht. destruct Ht as [Hu _].
  pose proof (update_position _ _ _ Hu) as Hp.
  apply update_inv in Hu. destruct Hu as (Hv & _).
  assert (Vector2.y (EGO_Car.velocity (ecar w')) = 0) as Hvy'.
  { rewrite Hv. unfold EGO_Car.integrate_velocity, Vector2.add. fields.
    rewrite control_velocity, Hvy. ring. }
  change (EGO_Car.angle (control dt p (ecar w))) with (EGO_Car.angle (ecar w))
    in Hp.
  change (EGO_Car.position (control dt p (ecar w)))
    with (EGO_Car.position (ecar w)) in Hp.
  rewrite Ha, rotate_quarter_turn in Hp.
  rewrite Hp. unfold Vector2.add, Vector2.scale. fields. rewrite Hvy'.
  repeat split; try ring.
  - rewrite <- Hmv. exact Hlim.
  - exact Ho.
Qed.

(** From any offset in the corridor, an iteration of 0 ms and one of 16 ms
    leave the loop running, whatever the keys. *)
Lemma two_frames_pending (off : R) (p0 p1 : keys) :
  0 <= off <= 145 / 10 ->
  exists w2,
    run false [mk_frame 0 p0 false; mk_frame 16 p1 false] (initial_world off)
    = Pending w2.
Proof.
  intros Hoff.
  destruct (tick_zero p0 (initial_world off) (initial_drivable off))
    as (w1 & Ht1 & Hp1 & Ha1 & Hv1 & Ho1 & He1).
  specialize (Hv1 (initial_speed_within_limit off)).
  pose proof (tick_constants _ _ _ _ Ht1) as Hc1.
  assert (drivable (ecar w1)) as Hd1.
  { eapply drivable_constants; [ exact Hc1 | apply initial_drivable ]. }
  assert (nonneg_limits (ecar w1)) as Hn1.
  { eapply nonneg_limits_constants; [ exact Hc1 | apply initial_nonneg_limits ]. }
  assert (heading_down (ecar w1)) as Hh1.
  { split; [ rewrite Ha1 | rewrite Hv1 ]; apply initial_heading_down. }
  destruct (tick_heading_down (dt_of 16) p1 w1 Hd1 Hn1 Hh1)
    as (w2 & Ht2 & Hx2 & Hy2 & Hlim2 & Ho2).
  exists w2. cbn [run get_time pressed quit].
  rewrite dt_of_0, Ht1, He1, (initial_end_condition off Hoff), Ht2.
  destruct Hc1 as (_ & _ & _ & Hmv1 & _).
  rewrite Hmv1 in Hlim2. apply Rabs_le_between in Hlim2.
  rewrite Hp1 in Hx2, Hy2. rewrite Ho1, dt_of_16 in Ho2.
  rewrite dt_of_16 in Hy2.
  revert Hx2 Hy2 Hlim2 Ho2.
  unfold others, initial_world, EGO_Car.init, O_Car.init, O_Car.update,
    Vector2.add. fields. cbn [map].
  set (v := Vector2.x (EGO_Car.velocity (ecar w2))).
  intros Hx2 Hy2 Hlim2 [= Hamu Hc3 Hc2 Hc1 Hc4 Hc5].
  assert (end_condition w2 = None) as He2.
  { unfold end_condition, close_to.
    rewrite Hx2, Hy2, Hamu, Hc3, Hc2, Hc1, Hc4, Hc5. fields.
    now compare_numbers. }
  now rewrite He2.
Qed.

(** ** How long a round lasts *)

Lemma O_update_y (c : O_Car.t) (dt : R) :
  Vector2.y (O_Car.position (O_Car.update c dt))
  = Vector2.y (O_Car.position c) + snd (O_Car.velocity c) * dt
  /\ O_Car.velocity (O_Car.update c dt) = O_Car.velocity c.
Proof. split; reflexivity. Qed.

(** The six who are not controlled, after the updates of a list of frames:
    each has come down by its speed times the simulated time. *)
Lemma ticks_others (fs : list frame) (w w' : world) :
  ticks fs w = Some w' ->
  map (fun o => (Vector2.y (O_Car.position o), O_Car.velocity o)) (others w')
  = map (fun o => (Vector2.y (O_Car.position o)
                   - snd (O_Car.velocity o) * elapsed fs,
                   O_Car.velocity o)) (others w).
Proof.
  revert w.
  induction fs as [ | f rest IH ]; intros w.
  - cbn [ticks elapsed fold_right]. intros [= <-]. unfold others. cbn [map].
    repeat (apply f_equal2; [ apply f_equal2; [ ring | reflexivity ] | ]).
    reflexivity.
  - cbn [ticks elapsed fold_right]. fold (elapsed rest). unfold bind.
    destruct (tick (dt_of (get_time f)) (pressed f) w) as [ w1 | ] eqn:Ht;
      [ | discriminate ].
    intros H. rewrite (IH _ H).
    apply tick_inv in Ht.
    destruct Ht as (_ & Ha & H1 & H2 & H3 & H4 & H5).
    unfold others. cbn [map]. rewrite Ha, H1, H2, H3, H4, H5.
    unfold O_Car.update, Vector2.add. fields.
    repeat (apply f_equal2; [ apply f_equal2; [ ring | reflexivity ] | ]).
    reflexivity.
Qed.

(** X7. While the loop started from the program's initial world has not
    ended, every non-controlled vehicle is at its initial y minus 8.31 times
    the simulated time of the frames processed, and that time is at most
    69 / 8.31 seconds: past it the priority vehicle is below y = 1 and the
    round is over. *)
Theorem a_round_lasts_at_most_69_over_831
  (off : R) (fs : list frame) (w' : world) :
  run false fs (initial_world off) = Pending w' ->
  map (fun o => Vector2.y (O_Car.position o)) (others w')
  = map (fun y0 => y0 - 831 / 100 * elapsed fs) [70; 57; 20; 89; 57; 57]
  /\ elapsed fs <= 6900 / 831.
Proof.
  intros Hrun. destruct (run_pending_ticks _ _ _ _ Hrun) as [Ht Hn].
  pose proof (ticks_others _ _ _ Ht) as Ho.
  assert (map (fun o => Vector2.y (O_Car.position o)) (others w')
          = map (fun y0 => y0 - 831 / 100 * elapsed fs) [70; 57; 20; 89; 57; 57])
    as Hy.
  { apply (f_equal (map fst)) in Ho. rewrite !map_map in Ho.
    cbn [fst] in Ho. rewrite Ho. reflexivity. }
  split; [ exact Hy | ].
  destruct fs as [ | f rest ].
  - cbn [elapsed fold_right]. lra.
  - assert (end_condition w' = None) as He.
    { revert Hrun. cbn [run].
      destruct (tick (dt_of (get_time f)) (pressed f) (initial_world off))
        as [ w1 | ]; [ | discriminate ].
      destruct (end_condition w1) eqn:E1; [ discriminate | ].
      intros H. now apply (run_pending_ticks _ _ _ _ H). }
    destruct (Rlt_dec (Vector2.y (O_Car.position (amu w'))) 1) as [ Hx | Hx ].
    + rewrite (end_condition_exited w' Hx) in He. discriminate.
    + unfold others in Hy. cbn [map] in Hy.
      injection Hy as Hamu _. rewrite Hamu in Hx.
      change (elapsed (f :: rest)) with (dt_of (get_time f) + elapsed rest).
      lra.
Qed.

(** The theorem on a run that has taken time: an iteration of 0 ms and one
    of 16 ms with no key held, after which the six vehicles are 8.31 * 0.016
    further down. *)
Lemma a_round_lasts_at_most_69_over_831_witness :
  let fs := [mk_frame 0 no_keys false; mk_frame 16 no_keys false] in
  elapsed fs = 2 / 125
  /\ exists w',
       run false fs (initial_world 7) = Pending w'
       /\ map (fun o => Vector2.y (O_Car.position o)) (others w')
          = map (fun y0 => y0 - 831 / 100 * elapsed fs)
              [70; 57; 20; 89; 57; 57]
       /\ elapsed fs <= 6900 / 831.
Proof.
  cbv zeta. split.
  - unfold elapsed. cbn [fold_right get_time]. rewrite dt_of_0, dt_of_16. lra.
  - destruct (two_frames_pending 7 no_keys no_keys) as [w' Hrun]; [ lra | ].
    exists w'. split; [ exact Hrun | ].
    apply (a_round_lasts_at_most_69_over_831 7
             [mk_frame 0 no_keys false; mk_frame 16 no_keys false] w' Hrun).
Defined.

(** ** Holding a steering key *)

Lemma tick_steering (dt : R) (p : keys) (w w' : world) :
  tick dt p w = Some w' ->
  EGO_Car.steering (ecar w')
  = clamp (lateral dt p (ecar w)) (EGO_Car.max_steering (ecar w)).
Proof.
  intros H. apply tick_inv in H. destruct H as [H _].
  apply update_inv in H. destruct H as (_ & _ & Hs & _).
  rewrite Hs. apply control_steering.
Qed.

Lemma clamp_Rmin (a m : R) : 0 <= m -> - m <= a -> clamp a m = Rmin a m.
Proof. intros Hm Ha. unfold Rmin. destruct (Rle_dec a m); by_cases; lra. Qed.

Lemma clamp_Rmax (a m : R) : 0 <= m -> a <= m -> clamp a m = Rmax a (- m).
Proof. intros Hm Ha. unfold Rmax. destruct (Rle_dec a (- m)); by_cases; lra. Qed.

Lemma ticks_steering_left (fs : list frame) (w w' : world) :
  steering_left fs ->
  0 <= EGO_Car.steering (ecar w) <= EGO_Car.max_steering (ecar w) ->
  ticks fs w = Some w' ->
  EGO_Car.steering (ecar w')
  = Rmin (EGO_Car.steering (ecar w) + 30 * elapsed fs)
      (EGO_Car.max_steering (ecar w)).
Proof.
  revert w.
  induction fs as [ | f rest IH ]; intros w Hfs Hs.
  - cbn [ticks elapsed fold_right]. intros [= <-].
    unfold Rmin. destruct (Rle_dec _ _); lra.
  - cbn [ticks elapsed fold_right]. fold (elapsed rest). unfold bind.
    destruct (tick (dt_of (get_time f)) (pressed f) w) as [ w1 | ] eqn:Ht;
      [ | discriminate ].
    apply Forall_cons_iff in Hfs. destruct Hfs as [[Hr Hl] Hrest].
    pose proof (dt_of_nonneg (get_time f)) as Hdt.
    pose proof (elapsed_nonneg rest) as HE.
    pose proof (tick_constants _ _ _ _ Ht) as (_ & _ & Hms & _).
    pose proof (tick_steering _ _ _ _ Ht) as Hs1.
    unfold lateral in Hs1. rewrite Hr, Hl in Hs1.
    rewrite clamp_Rmin in Hs1 by lra.
    intros H. rewrite (IH w1 Hrest); [ | | exact H ].
    + rewrite Hms, Hs1. unfold Rmin.
      repeat destruct (Rle_dec _ _); lra.
    + rewrite Hms, Hs1. unfold Rmin. destruct (Rle_dec _ _); lra.
Qed.

Lemma ticks_steering_right (fs : list frame) (w w' : world) :
  steering_right fs ->
  - EGO_Car.max_steering (ecar w) <= EGO_Car.steering (ecar w) <= 0 ->
  ticks fs w = Some w' ->
  EGO_Car.steering (ecar w')
  = Rmax (EGO_Car.steering (ecar w) - 30 * elapsed fs)
      (- EGO_Car.max_steering (ecar w)).
Proof.
  revert w.
  induction fs as [ | f rest IH ]; intros w Hfs Hs.
  - cbn [ticks elapsed fold_right]. intros [= <-].
    unfold Rmax. destruct (Rle_dec _ _); lra.
  - cbn [ticks elapsed fold_right]. fold (elapsed rest). unfold bind.
    destruct (tick (dt_of (get_time f)) (pressed f) w) as [ w1 | ] eqn:Ht;
      [ | discriminate ].
    apply Forall_cons_iff in Hfs. destruct Hfs as [Hr Hrest].
    pose proof (dt_of_nonneg (get_time f)) as Hdt.
    pose proof (elapsed_nonneg rest) as HE.
    pose proof (tick_constants _ _ _ _ Ht) as (_ & _ & Hms & _).
    pose proof (tick_steering _ _ _ _ Ht) as Hs1.
    unfold lateral in Hs1. rewrite Hr in Hs1.
    rewrite clamp_Rmax in Hs1 by lra.
    intros H. rewrite (IH w1 Hrest); [ | | exact H ].
    + rewrite Hms, Hs1. unfold Rmax.
      repeat destruct (Rle_dec _ _); lra.
    + rewrite Hms, Hs1. unfold Rmax. destruct (Rle_dec _ _); lra.
Qed.

(** X8. While the loop has not ended: with the left key held alone in every
    frame, a steering angle that started between 0 and the limit is
    min(start + 30 * simulated time, max_steering), so from the centre it
    reaches the limit of 30 degrees after one second and stays there; with
    the right key held in every frame, a steering angle that started between
    minus the limit and 0 is max(start - 30 * simulated time,
    -max_steering). *)
Theorem held_steering_key_ramps_to_the_limit (fs : list frame) (w w' : world) :
  run false fs w = Pending w' ->
  (steering_left fs ->
   0 <= EGO_Car.steering (ecar w) <= EGO_Car.max_steering (ecar w) ->
   EGO_Car.steering (ecar w')
   = Rmin (EGO_Car.steering (ecar w) + 30 * elapsed fs)
       (EGO_Car.max_steering (ecar w)))
  /\ (steering_right fs ->
      - EGO_Car.max_steering (ecar w) <= EGO_Car.steering (ecar w) <= 0 ->
      EGO_Car.steering (ecar w')
      = Rmax (EGO_Car.steering (ecar w) - 30 * elapsed fs)
          (- EGO_Car.max_steering (ecar w))).
Proof.
  intros Hrun. apply run_pending_ticks in Hrun. destruct Hrun as [Ht _].
  split; intros Hfs Hs.
  - now apply ticks_steering_left.
  - now apply ticks_steering_right.
Qed.

(** The theorem on runs that have taken time: after an iteration of 0 ms and
    one of 16 ms with the left key held the steering angle is 0.48 degrees,
    and with the right key held it is -0.48 degrees. *)
Lemma held_steering_key_ramps_to_the_limit_witness :
  let left := mk_keys false false false true in
  let right := mk_keys false false true false in
  (exists w',
     run false [mk_frame 0 left false; mk_frame 16 left false] (initial_world 7)
     = Pending w'
     /\ EGO_Car.steering (ecar w') = 12 / 25)
  /\ (exists w',
        run false [mk_frame 0 right false; mk_frame 16 right false]
          (initial_world 7) = Pending w'
        /\ EGO_Car.steering (ecar w') = - (12 / 25)).
Proof.
  cbv zeta. split.
  - destruct (two_frames_pending 7 (mk_keys false false false true)
                (mk_keys false false false true)) as [w' Hrun]; [ lra | ].
    exists w'. split; [ exact Hrun | ].
    rewrite (proj1 (held_steering_key_ramps_to_the_limit _ _ _ Hrun)).
    + unfold elapsed. cbn [fold_right get_time]. rewrite dt_of_0, dt_of_16.
      unfold initial_world, EGO_Car.init. fields.
      unfold Rmin. destruct (Rle_dec _ _); lra.
    + repeat (apply Forall_cons; [ split; reflexivity | ]). apply Forall_nil.
    + unfold initial_world, EGO_Car.init. fields. lra.
  - destruct (two_frames_pending 7 (mk_keys false false true false)
                (mk_keys false false true false)) as [w' Hrun]; [ lra | ].
    exists w'. split; [ exact Hrun | ].
    rewrite (proj2 (held_steering_key_ramps_to_the_limit _ _ _ Hrun)).
    + unfold elapsed. cbn [fold_right get_time]. rewrite dt_of_0, dt_of_16.
      unfold initial_world, EGO_Car.init. fields.
      unfold Rmax. destruct (Rle_dec _ _); lra.
    + repeat (apply Forall_cons; [ reflexivity | ]). apply Forall_nil.
    + unfold initial_world, EGO_Car.init. fields. lra.
Defined.

(** ** Holding the up key *)

(** X9. With the up key held and the vehicle moving forward, the
    acceleration of a tick is the previous acceleration plus dt, capped at
    max_acceleration: the key ramps the acceleration, it does not set it.
    While previous acceleration plus dt is not above zero (after coasting,
    for instance, where it was -1) the vehicle gains no speed although the
    key is held; from a non-negative acceleration it loses none.  The
    vehicle's speed and acceleration are within their limits before the
    tick. *)
Theorem up_key_ramps_the_acceleration (dt : R) (p : keys) (w w' : world) :
  0 < dt ->
  K_UP p = true ->
  0 < Vector2.x (EGO_Car.velocity (ecar w)) ->
  Rabs (Vector2.x (EGO_Car.velocity (ecar w))) <= EGO_Car.max_velocity (ecar w) ->
  Rabs (EGO_Car.acceleration (ecar w)) <= EGO_Car.max_acceleration (ecar w) ->
  tick dt p w = Some w' ->
  EGO_Car.acceleration (ecar w')
  = Rmin (EGO_Car.acceleration (ecar w) + dt) (EGO_Car.max_acceleration (ecar w))
  /\ (EGO_Car.acceleration (ecar w) + dt <= 0 ->
      Vector2.x (EGO_Car.velocity (ecar w'))
      <= Vector2.x (EGO_Car.velocity (ecar w)))
  /\ (0 <= EGO_Car.acceleration (ecar w) ->
      Vector2.x (EGO_Car.velocity (ecar w))
      <= Vector2.x (EGO_Car.velocity (ecar w'))).
Proof.
  intros Hdt Hup Hv0 Hv Ha Ht.
  apply tick_longitudinal in Ht. cbv zeta in Ht. destruct Ht as [Ha' Hv'].
  unfold longitudinal in Ha', Hv'. rewrite Hup in Ha', Hv'.
  rewrite (proj2 (Rltb_false _ 0)) in Ha', Hv' by lra.
  apply Rabs_le_between in Hv. apply Rabs_le_between in Ha.
  set (v := Vector2.x (EGO_Car.velocity (ecar w))) in *.
  set (a := EGO_Car.acceleration (ecar w)) in *.
  set (ma := EGO_Car.max_acceleration (ecar w)) in *.
  set (mv := EGO_Car.max_velocity (ecar w)) in *.
  rewrite (clamp_Rmin (a + 1 * dt) ma) in Ha', Hv' by lra.
  replace (a + 1 * dt) with (a + dt) in Ha', Hv' by ring.
  split; [ exact Ha' | ].
  set (a' := Rmin (a + dt) ma) in *.
  split.
  - intros Hneg.
    assert (a' <= 0) as Ha'neg.
    { unfold a', Rmin. destruct (Rle_dec _ _); lra. }
    assert (a' * dt <= 0) as Hprod by nra.
    rewrite Hv'. by_cases; lra.
  - intros Hpos.
    assert (0 <= a') as Ha'pos.
    { unfold a', Rmin. destruct (Rle_dec _ _); lra. }
    assert (0 <= a' * dt) as Hprod by nra.
    rewrite Hv'. by_cases; lra.
Qed.

Lemma up_key_ramps_the_acceleration_witness :
  exists w',
    tick (1 / 100) (mk_keys true false false false) (initial_world 7) = Some w'
    /\ EGO_Car.acceleration (ecar w')
       = Rmin (EGO_Car.acceleration (ecar (initial_world 7)) + 1 / 100)
           (EGO_Car.max_acceleration (ecar (initial_world 7))).
Proof.
  destruct (tick_total (1 / 100) (mk_keys true false false false)
              (initial_world 7) (initial_drivable 7)) as [w' Ht].
  exists w'. split; [ exact Ht | ].
  apply (up_key_ramps_the_acceleration (1 / 100)
           (mk_keys true false false false) (initial_world 7) w').
  - lra.
  - reflexivity.
  - unfold initial_world, EGO_Car.init. fields. lra.
  - apply initial_speed_within_limit.
  - unfold initial_world, EGO_Car.init. fields. apply Rabs_le. lra.
  - exact Ht.
Defined.

(** ** The log *)

Lemma same_constants_trans (a b c : EGO_Car.t) :
  same_constants a b -> same_constants b c -> same_constants a c.
Proof.
  unfold same_constants.
  intros (A1 & A2 & A3 & A4 & A5 & A6) (B1 & B2 & B3 & B4 & B5 & B6).
  repeat split; congruence.
Qed.

Lemma trace_within_limits (exit : bool) (fs : list frame) (w : world) :
  nonneg_limits (ecar w) ->
  Forall (fun w' => within_limits (ecar w')
                    /\ same_constants (ecar w) (ecar w')) (trace exit fs w).
Proof.
  revert exit w.
  induction fs as [ | f rest IH ]; intros exit w Hw.
  - destruct exit; constructor.
  - cbn [trace]. destruct exit; [ constructor | ].
    destruct (tick (dt_of (get_time f)) (pressed f) w) as [ w' | ] eqn:Ht;
      [ | constructor ].
    pose proof (tick_constants _ _ _ _ Ht) as Hc.
    constructor.
    + split; [ eapply tick_within_limits; eassumption | exact Hc ].
    + destruct (end_condition w'); [ constructor | ].
      eapply Forall_impl; [ | apply IH ].
      * intros w2 [Hl Hc2]. split; [ exact Hl | ].
        eapply same_constants_trans; eassumption.
      * eapply nonneg_limits_constants; eassumption.
Qed.

(** X10. Along any run from the program's initial world, each iteration
    either appends a record to the log, when the priority vehicle's y is
    above 1, or prints the simulation time, when it is not.  A record is a
    comma, the lateral distance 7 - ego.x, a comma, a speed within 13.85 in
    magnitude, a comma, an acceleration within 5 in magnitude and a newline,
    and the iteration that writes it does not end the round with "End of the
    round". *)
Theorem log_records_along_a_run (off : R) (exit : bool) (fs : list frame) :
  Forall (fun w' =>
            match logging w' with
            | Append_to_Right_txt line =>
                Vector2.y (O_Car.position (amu w')) > 1
                /\ end_condition w' <> Some End_of_the_round
                /\ line = [Comma;
                           Str (7 - Vector2.x (EGO_Car.position (ecar w')));
                           Comma;
                           Str (Vector2.x (EGO_Car.velocity (ecar w')));
                           Comma;
                           Str (EGO_Car.acceleration (ecar w'));
                           Newline]
                /\ Rabs (Vector2.x (EGO_Car.velocity (ecar w'))) <= 1385 / 100
                /\ Rabs (EGO_Car.acceleration (ecar w')) <= 5
            | Print_simulation_time =>
                Vector2.y (O_Car.position (amu w')) <= 1
            end)
    (trace exit fs (initial_world off)).
Proof.
  pose proof (trace_within_limits exit fs _ (initial_nonneg_limits off)) as Hl.
  pose proof (trace_lanes exit fs _ (initial_no_lateral_velocity off)) as Hx.
  pose proof (Forall_and Hl Hx) as H.
  eapply Forall_impl; [ | exact H ].
  intros w' [[(Hv & _ & Ha) (_ & Hma & _ & Hmv & _)] Hlane]. cbv beta in *.
  unfold logging, Rgtb.
  destruct (Rlt_dec 1 (Vector2.y (O_Car.position (amu w')))) as [ Hy | Hy ].
  - rewrite (proj2 (Rltb_true _ _) Hy).
    split; [ exact Hy | ]. split.
    + assert (~ exited w') as Hne by (unfold exited; lra).
      now destruct (end_condition_not_exited w' Hne) as (_ & _ & Hn).
    + split.
      * unfold lanes, others in Hlane. cbn [map] in Hlane.
        injection Hlane as Hamu _. rewrite Hamu. reflexivity.
      * rewrite Hmv in Hv. rewrite Hma in Ha. split; assumption.
  - rewrite (proj2 (Rltb_false _ _)) by lra. lra.
Qed.

(** ** Holding the down key *)

(** X11. With the down key held alone and the vehicle moving forward, the
    acceleration of the tick is minus the brake deceleration at once, with
    no ramp, and the speed drops by brake_deceleration * dt.  The brake does
    not stop at rest: from a forward speed below brake_deceleration * dt the
    tick ends with a negative speed.  The brake deceleration is positive and
    within the acceleration limit, and the speed within its limit. *)
Theorem down_key_brakes_at_once (dt : R) (p : keys) (w w' : world) :
  0 < dt ->
  K_UP p = false -> K_DOWN p = true ->
  0 < Vector2.x (EGO_Car.velocity (ecar w)) ->
  Rabs (Vector2.x (EGO_Car.velocity (ecar w))) <= EGO_Car.max_velocity (ecar w) ->
  0 < EGO_Car.brake_deceleration (ecar w) <= EGO_Car.max_acceleration (ecar w) ->
  tick dt p w = Some w' ->
  EGO_Car.acceleration (ecar w') = - EGO_Car.brake_deceleration (ecar w)
  /\ Vector2.x (EGO_Car.velocity (ecar w'))
     = Rmax (Vector2.x (EGO_Car.velocity (ecar w))
             - EGO_Car.brake_deceleration (ecar w) * dt)
         (- EGO_Car.max_velocity (ecar w))
  /\ Vector2.x (EGO_Car.velocity (ecar w'))
     < Vector2.x (EGO_Car.velocity (ecar w))
  /\ (Vector2.x (EGO_Car.velocity (ecar w))
        < EGO_Car.brake_deceleration (ecar w) * dt ->
      Vector2.x (EGO_Car.velocity (ecar w')) < 0).
Proof.
  intros Hdt Hup Hdown Hv0 Hv [Hb0 Hb1] Ht.
  apply tick_longitudinal in Ht. cbv zeta in Ht. destruct Ht as [Ha' Hv'].
  unfold longitudinal, Rgtb in Ha', Hv'. rewrite Hup, Hdown in Ha', Hv'.
  rewrite (proj2 (Rltb_true 0 _)) in Ha', Hv' by lra.
  apply Rabs_le_between in Hv.
  set (v := Vector2.x (EGO_Car.velocity (ecar w))) in *.
  set (b := EGO_Car.brake_deceleration (ecar w)) in *.
  set (ma := EGO_Car.max_acceleration (ecar w)) in *.
  set (mv := EGO_Car.max_velocity (ecar w)) in *.
  rewrite (clamp_inside (-1 * b) ma) in Ha', Hv' by lra.
  assert (0 < b * dt) as Hprod by (apply Rmult_lt_0_compat; assumption).
  rewrite (clamp_Rmax (v + -1 * b * dt) mv) in Hv' by lra.
  replace (v + -1 * b * dt) with (v - b * dt) in Hv' by ring.
  split; [ rewrite Ha'; ring | ].
  split; [ exact Hv' | ].
  rewrite Hv'. unfold Rmax.
  split; [ | intros Hsmall ]; destruct (Rle_dec _ _); lra.
Qed.

Lemma down_key_brakes_at_once_witness :
  exists w',
    tick 2 (mk_keys false true false false) (initial_world 7) = Some w'
    /\ EGO_Car.acceleration (ecar w') = - 5
    /\ Vector2.x (EGO_Car.velocity (ecar w')) < 0.
Proof.
  destruct (tick_total 2 (mk_keys false true false false)
              (initial_world 7) (initial_drivable 7)) as [w' Ht].
  exists w'. split; [ exact Ht | ].
  destruct (down_key_brakes_at_once 2 (mk_keys false true false false)
              (initial_world 7) w') as (Ha & _ & _ & Hneg).
  - lra.
  - reflexivity.
  - reflexivity.
  - unfold initial_world, EGO_Car.init. fields. lra.
  - apply initial_speed_within_limit.
  - unfold initial_world, EGO_Car.init. fields. lra.
  - exact Ht.
  - split; [ exact Ha | ]. apply Hneg.
    unfold initial_world, EGO_Car.init. fields. lra.
Defined.
